(** * Event Chatbot API (event-bot/server.js): a shallow embedding

    The Express handlers of [server.js] are embedded as functions in a small
    state-and-exception monad over an explicit model of the two MongoDB
    collections, [know_base] and [query_logs].  An awaited database
    operation either goes through or rejects with a message; a rejection
    unwinds to the [catch] block of the handler, as in the source.

    What Mongoose and MongoDB do is modelled next to the handlers: the
    regular expressions built by [new RegExp], [find] with [limit(1)], the
    [$in] filter on tags and the aggregation pipeline.  The relevance
    function of the text index [TextIdx_QA_Tags] is a parameter of the
    development.

    The submit handler of the chat widget ([ChatInterface.jsx]) is embedded
    over the same world, with the network between widget and server as a
    parameter of each submit.

    Requests are taken at their declared types: a field of a body or of a
    query string is a string (an array of strings for [tags] in a body) or
    is left out.  Strings are sequences of 8-bit characters; [toLowerCase],
    [trim] and the [i] flag act on the ASCII range. *)

From Stdlib Require Import List String Ascii Bool Arith ZArith QArith Lia.
From Stdlib Require Import Permutation Sorted DecimalString.
Import ListNotations.

Set Implicit Arguments.
Close Scope Q_scope.
Local Open Scope string_scope.
Local Open Scope list_scope.

(* ================================================================== *)
(** ** JavaScript strings *)

Module Js.

Definition chars (s : string) : list ascii := list_ascii_of_string s.

Definition is_upper (c : ascii) : bool :=
  let n := nat_of_ascii c in (65 <=? n)%nat && (n <=? 90)%nat.

Definition is_lower (c : ascii) : bool :=
  let n := nat_of_ascii c in (97 <=? n)%nat && (n <=? 122)%nat.

Definition lower_char (c : ascii) : ascii :=
  if is_upper c then ascii_of_nat (nat_of_ascii c + 32) else c.

Definition upper_char (c : ascii) : ascii :=
  if is_lower c then ascii_of_nat (nat_of_ascii c - 32) else c.

(** [String.prototype.toLowerCase] *)
Fixpoint toLowerCase (s : string) : string :=
  match s with
  | EmptyString => EmptyString
  | String c r => String (lower_char c) (toLowerCase r)
  end.

(** White space removed by [String.prototype.trim]:
    TAB, LF, VT, FF, CR and SPACE. *)
Definition is_space (c : ascii) : bool :=
  let n := nat_of_ascii c in
  ((9 <=? n)%nat && (n <=? 13)%nat) || (n =? 32)%nat.

Fixpoint trimStart (s : string) : string :=
  match s with
  | EmptyString => EmptyString
  | String c r => if is_space c then trimStart r else s
  end.

(** Drops trailing white space: a character is kept when something
    that is kept follows it, or when it is not white space itself. *)
Fixpoint trimEnd (s : string) : string :=
  match s with
  | EmptyString => EmptyString
  | String c r =>
      match trimEnd r with
      | EmptyString => if is_space c then EmptyString else String c EmptyString
      | r' => String c r'
      end
  end.

(** [String.prototype.trim] *)
Definition trim (s : string) : string := trimEnd (trimStart s).

(** [String.prototype.split] with a one-character separator: the pieces
    between the separators, at least one piece. *)
Fixpoint split (sep : ascii) (s : string) : list string :=
  match s with
  | EmptyString => [EmptyString]
  | String c r =>
      if Ascii.eqb c sep then EmptyString :: split sep r
      else match split sep r with
           | p :: ps => String c p :: ps
           | [] => [String c EmptyString]
           end
  end.

(** Truthiness of a string value: every string but the empty one. *)
Definition truthy (s : string) : bool :=
  match s with EmptyString => false | String _ _ => true end.

(** Truthiness of a possibly undefined string. *)
Definition truthy_opt (o : option string) : bool :=
  match o with Some s => truthy s | None => false end.

(** Destructuring default, [const { x = d } = obj]. *)
Definition default {A} (d : A) (o : option A) : A :=
  match o with Some a => a | None => d end.

(** [Array.prototype.length] as a condition. *)
Definition nonempty {A} (l : list A) : bool :=
  match l with [] => false | _ :: _ => true end.

(** [String.prototype.replace] with a global character-class pattern:
    every character of the class is replaced by [by_ c]. *)
Fixpoint replace_class (cls : ascii -> bool) (by_ : ascii -> string)
         (s : string) : string :=
  match s with
  | EmptyString => EmptyString
  | String c r =>
      if cls c then by_ c ++ replace_class cls by_ r
      else String c (replace_class cls by_ r)
  end.

(** Case-insensitive containment: [needle] occurs in [hay] up to the case
    of ASCII letters. *)
Definition ci_prefix (needle hay : list ascii) : Prop :=
  exists post, map lower_char hay = map lower_char needle ++ post.

Definition ci_substring (needle hay : string) : Prop :=
  exists pre post,
    map lower_char (chars hay)
    = pre ++ map lower_char (chars needle) ++ post.

End Js.

(* ================================================================== *)
(** ** Regular expressions, as [new RegExp(source, "i")] reads them *)

Module RegExp.

Inductive regex : Type :=
| Eps
| Chr (c : ascii)
| CharSet (neg : bool) (ranges : list (ascii * ascii))
| Bol
| Eol
| Seq (r1 r2 : regex)
| Alt (r1 r2 : regex)
| Star (r : regex).

(** *** Lexing *)

Inductive token : Type :=
| TChar (c : ascii)
| TSet (neg : bool) (ranges : list (ascii * ascii))
| TStar | TPlus | TQuest | TBar | TOpen | TClose | TBol | TEol.

Definition digit_ranges : list (ascii * ascii) := [("0", "9")]%char.
Definition word_ranges : list (ascii * ascii) :=
  [("a", "z"); ("A", "Z"); ("0", "9"); ("_", "_")]%char.
Definition space_ranges : list (ascii * ascii) :=
  [(ascii_of_nat 9, ascii_of_nat 13); (" ", " ")]%char.
(** [.] is every character but the line terminators LF and CR. *)
Definition newline_ranges : list (ascii * ascii) :=
  [(ascii_of_nat 10, ascii_of_nat 10); (ascii_of_nat 13, ascii_of_nat 13)].

Definition is_alnum (c : ascii) : bool :=
  let n := nat_of_ascii c in
  Js.is_upper c || Js.is_lower c || ((48 <=? n)%nat && (n <=? 57)%nat).

(** The character after a backslash.  A character that is no letter and no
    digit stands for itself (identity escape); [\d \w \s] and their
    complements are classes; [\t \n \r \f \v] are control characters.
    Other letters and digits (back references, [\b], [\x], [\u], [\c]) are
    outside the modelled fragment. *)
Definition escape_token (c : ascii) : option token :=
  if negb (is_alnum c) then Some (TChar c)
  else if Ascii.eqb c "d" then Some (TSet false digit_ranges)
  else if Ascii.eqb c "D" then Some (TSet true digit_ranges)
  else if Ascii.eqb c "w" then Some (TSet false word_ranges)
  else if Ascii.eqb c "W" then Some (TSet true word_ranges)
  else if Ascii.eqb c "s" then Some (TSet false space_ranges)
  else if Ascii.eqb c "S" then Some (TSet true space_ranges)
  else if Ascii.eqb c "t" then Some (TChar (ascii_of_nat 9))
  else if Ascii.eqb c "n" then Some (TChar (ascii_of_nat 10))
  else if Ascii.eqb c "v" then Some (TChar (ascii_of_nat 11))
  else if Ascii.eqb c "f" then Some (TChar (ascii_of_nat 12))
  else if Ascii.eqb c "r" then Some (TChar (ascii_of_nat 13))
  else None.

(** The members of a bracket class, up to the closing bracket. *)
Inductive class_atom : Type :=
| CPlain (c : ascii)                      (* written as it is *)
| CEscaped (c : ascii)                    (* written after a backslash *)
| CRanges (rs : list (ascii * ascii)).    (* [\d], [\w], [\s] *)

(** The atoms read and the rest of the pattern.  [None]: unterminated
    class, or an escape outside the fragment. *)
Fixpoint lex_class (s : list ascii)
  : option (list class_atom * list ascii) :=
  match s with
  | [] => None
  | c :: r =>
      if Ascii.eqb c "]" then Some ([], r)
      else if Ascii.eqb c "\" then
        match r with
        | [] => None
        | e :: r' =>
            match escape_token e, lex_class r' with
            | Some (TChar x), Some (atoms, rest) =>
                Some (CEscaped x :: atoms, rest)
            | Some (TSet false xs), Some (atoms, rest) =>
                Some (CRanges xs :: atoms, rest)
            | _, _ => None
            end
        end
      else
        match lex_class r with
        | Some (atoms, rest) => Some (CPlain c :: atoms, rest)
        | None => None
        end
  end.

Definition atom_char (a : class_atom) : option ascii :=
  match a with
  | CPlain c | CEscaped c => Some c
  | CRanges _ => None
  end.

(** [a-b] between two characters is a range; every other atom stands for
    itself. *)
Fixpoint class_ranges (atoms : list class_atom) : list (ascii * ascii) :=
  match atoms with
  | [] => []
  | a :: rest =>
      let alone :=
        match a with
        | CPlain c | CEscaped c => [(c, c)]
        | CRanges rs => rs
        end in
      match atom_char a, rest with
      | Some lo, CPlain "-"%char :: b :: rest' =>
          match atom_char b with
          | Some hi => (lo, hi) :: class_ranges rest'
          | None => alone ++ class_ranges rest
          end
      | _, _ => alone ++ class_ranges rest
      end
  end.

(** The lexer proper.  [fuel] bounds the number of tokens; the length of
    the pattern is always enough.  A lone closing bracket or brace is an
    ordinary character; an opening brace (a counted repetition) is outside
    the modelled fragment. *)
Fixpoint lex (fuel : nat) (s : list ascii) : option (list token) :=
  match s with
  | [] => Some []
  | c :: r =>
      match fuel with
      | O => None
      | S fuel' =>
          let simple (t : token) :=
            option_map (cons t) (lex fuel' r) in
          if Ascii.eqb c "\" then
            match r with
            | [] => None
            | e :: r' =>
                match escape_token e with
                | Some t => option_map (cons t) (lex fuel' r')
                | None => None
                end
            end
          else if Ascii.eqb c "[" then
            let '(neg, body) :=
              match r with
              | "^"%char :: b => (true, b)
              | _ => (false, r)
              end in
            match lex_class body with
            | Some (atoms, rest) =>
                option_map (cons (TSet neg (class_ranges atoms)))
                           (lex fuel' rest)
            | None => None
            end
          else if Ascii.eqb c "." then simple (TSet true newline_ranges)
          else if Ascii.eqb c "*" then simple TStar
          else if Ascii.eqb c "+" then simple TPlus
          else if Ascii.eqb c "?" then simple TQuest
          else if Ascii.eqb c "|" then simple TBar
          else if Ascii.eqb c "(" then simple TOpen
          else if Ascii.eqb c ")" then simple TClose
          else if Ascii.eqb c "^" then simple TBol
          else if Ascii.eqb c "$" then simple TEol
          else if Ascii.eqb c "{" then None
          else simple (TChar c)
      end
  end.

(** *** Parsing *)

(** What a repetition sign may follow. *)
Inductive last_term : Type :=
| NoTerm         (* start of an alternative, or an assertion *)
| Atom           (* a character, a class or a group *)
| Quantified.    (* a repeated atom: only the lazy mark [?] may follow *)

(** An open group: the alternatives completed so far and the terms of the
    alternative being read, both latest first. *)
Record frame : Type := mkFrame {
  alts : list regex;
  terms : list regex;
  last : last_term
}.

Definition empty_frame : frame := mkFrame [] [] NoTerm.

Definition seq_of (rs : list regex) : regex := fold_right Seq Eps rs.

Definition close_frame (f : frame) : regex :=
  fold_left (fun acc a => Alt a acc) (alts f) (seq_of (rev (terms f))).

Definition push_atom (r : regex) (f : frame) : frame :=
  mkFrame (alts f) (r :: terms f) Atom.

Definition push_assert (r : regex) (f : frame) : frame :=
  mkFrame (alts f) (r :: terms f) NoTerm.

(** A repetition sign applies to the latest atom; with no atom before it
    there is nothing to repeat. *)
Definition quantify (q : regex -> regex) (f : frame) : option frame :=
  match last f, terms f with
  | Atom, a :: rest => Some (mkFrame (alts f) (q a :: rest) Quantified)
  | _, _ => None
  end.

Definition plus (r : regex) : regex := Seq r (Star r).
Definition quest (r : regex) : regex := Alt r Eps.

(** [stack] holds the open groups, innermost first, above [f]. *)
Fixpoint parse (ts : list token) (f : frame) (stack : list frame)
  : option regex :=
  match ts with
  | [] =>
      match stack with
      | [] => Some (close_frame f)
      | _ :: _ => None
      end
  | t :: ts' =>
      match t with
      | TChar c => parse ts' (push_atom (Chr c) f) stack
      | TSet neg rs => parse ts' (push_atom (CharSet neg rs) f) stack
      | TBol => parse ts' (push_assert Bol f) stack
      | TEol => parse ts' (push_assert Eol f) stack
      | TStar =>
          match quantify Star f with
          | Some f' => parse ts' f' stack
          | None => None
          end
      | TPlus =>
          match quantify plus f with
          | Some f' => parse ts' f' stack
          | None => None
          end
      | TQuest =>
          match last f with
          | Quantified =>
              parse ts' (mkFrame (alts f) (terms f) NoTerm) stack
          | _ =>
              match quantify quest f with
              | Some f' => parse ts' f' stack
              | None => None
              end
          end
      | TBar =>
          parse ts'
                (mkFrame (seq_of (rev (terms f)) :: alts f) [] NoTerm)
                stack
      | TOpen => parse ts' empty_frame (f :: stack)
      | TClose =>
          match stack with
          | [] => None
          | outer :: stack' =>
              parse ts' (push_atom (close_frame f) outer) stack'
          end
      end
  end.

(** [new RegExp(source, "i")]: [None] when the constructor throws a
    [SyntaxError] (or the pattern leaves the modelled fragment). *)
Definition compile (source : string) : option regex :=
  match lex (String.length source) (Js.chars source) with
  | Some ts => parse ts empty_frame []
  | None => None
  end.

(** *** Matching, with the [i] flag *)

Definition in_range (c : ascii) (r : ascii * ascii) : bool :=
  (nat_of_ascii (fst r) <=? nat_of_ascii c)%nat
  && (nat_of_ascii c <=? nat_of_ascii (snd r))%nat.

Definition in_ranges (c : ascii) (rs : list (ascii * ascii)) : bool :=
  existsb (in_range c) rs.

(** Under [i] a character matches when it or its other-case form does. *)
Definition chr_matches (p c : ascii) : bool :=
  Ascii.eqb (Js.lower_char p) (Js.lower_char c).

Definition set_matches (neg : bool) (rs : list (ascii * ascii))
           (c : ascii) : bool :=
  xorb neg (in_ranges (Js.lower_char c) rs || in_ranges (Js.upper_char c) rs).

(** A position in the subject: whether it is the very start, and what is
    left to read. *)
Definition position : Type := (bool * list ascii)%type.

(** [repeat_from n step p]: the positions reached from [p] by zero or
    more rounds of [step], each round consuming at least one character. *)
Fixpoint repeat_from (n : nat) (step : position -> list position)
         (p : position) : list position :=
  p :: match n with
       | O => []
       | S n' =>
           flat_map (repeat_from n' step)
                    (filter (fun p' =>
                               (List.length (snd p') <? List.length (snd p))%nat)
                            (step p))
       end.

(** The positions at which a match of [r] that starts at [p] can end. *)
Fixpoint run (r : regex) (p : position) : list position :=
  match r with
  | Eps => [p]
  | Chr c =>
      match snd p with
      | a :: rest => if chr_matches c a then [(false, rest)] else []
      | [] => []
      end
  | CharSet neg rs =>
      match snd p with
      | a :: rest => if set_matches neg rs a then [(false, rest)] else []
      | [] => []
      end
  | Bol => if fst p then [p] else []
  | Eol => match snd p with [] => [p] | _ :: _ => [] end
  | Seq r1 r2 => flat_map (run r2) (run r1 p)
  | Alt r1 r2 => run r1 p ++ run r2 p
  | Star r' => repeat_from (List.length (snd p)) (run r') p
  end.

Definition matches_at (r : regex) (p : position) : bool :=
  Js.nonempty (run r p).

(** An unanchored search: a match may start at every offset. *)
Fixpoint search (r : regex) (at_start : bool) (s : list ascii) : bool :=
  matches_at r (at_start, s)
  || match s with
     | [] => false
     | _ :: s' => search r false s'
     end.

(** [rx.test(subject)] *)
Definition test (r : regex) (subject : string) : bool :=
  search r true (Js.chars subject).

(** *** The escaping of [regexFallback] *)

(** The class [[.*+?^${}()|[\]\\]] of the replace pattern. *)
Definition is_syntax_char (c : ascii) : bool :=
  existsb (Ascii.eqb c)
          ["."; "*"; "+"; "?"; "^"; "$"; "{"; "}";
           "("; ")"; "|"; "["; "]"; "\"]%char.

(** The replacement ["\\$&"]: a backslash, then the matched character. *)
Definition backslashed (c : ascii) : string :=
  String "\" (String c EmptyString).

(** [query.replace(/[.*+?^${}()|[\]\\]/g, "\\$&")] *)
Definition escape (query : string) : string :=
  Js.replace_class is_syntax_char backslashed query.

(** The expression that matches the characters of [s], one after the
    other, and nothing else. *)
Definition literal (s : string) : regex := seq_of (map Chr (Js.chars s)).

End RegExp.

(* ================================================================== *)
(** ** The two collections *)

(** [ObjectId]s are drawn from a counter; dates are milliseconds. *)
Definition ObjectId : Type := nat.
Definition Date : Type := Z.

(** The [matchedBy] enumeration of [logSchema]. *)
Inductive tier : Type := by_text | by_regex | by_tag | by_none.

Definition tier_name (t : tier) : string :=
  match t with
  | by_text => "text"
  | by_regex => "regex"
  | by_tag => "tag"
  | by_none => "none"
  end.

(** [kbSchema], collection [know_base]. *)
Module KB.
Record doc : Type := mk {
  _id : ObjectId;
  question : string;
  answer : string;
  tags : list string;
  source : string;
  createdAt : Date
}.
End KB.

(** [logSchema], collection [query_logs].  A field that is [undefined] or
    [null] when the document is created is absent. *)
Module Log.
Record doc : Type := mk {
  _id : ObjectId;
  query : string;
  matchedDocId : option ObjectId;
  score : option Q;
  matchedBy : tier;
  createdAt : Date
}.
End Log.

(** The operations sent to the database. *)
Inductive StoreCall : Type :=
| FindText (search : string)
| FindRegex (pattern : string)
| FindTagsIn (tags : list string)
| CreateKB
| CreateLog
| AggregateLog.

(** The state a handler runs in.  [failing] tells which database
    operations are rejected at present, and with which message; [calls]
    records the operations sent, latest last. *)
Record World : Type := mkWorld {
  know_base : list KB.doc;
  query_logs : list Log.doc;
  next_id : ObjectId;
  now : Date;
  failing : StoreCall -> option string;
  calls : list StoreCall
}.

(** The database performs every operation sent to it. *)
Definition healthy (w : World) : Prop := forall c, failing w c = None.

(* ================================================================== *)
(** ** Asynchronous code: state and exceptions *)

Inductive outcome (A : Type) : Type :=
| Returned (a : A)
| Thrown (message : string).

Arguments Returned {A} a.
Arguments Thrown {A} message.

Definition Async (A : Type) : Type := World -> outcome A * World.

Definition ret {A} (a : A) : Async A := fun w => (Returned a, w).

Definition throw {A} (message : string) : Async A :=
  fun w => (Thrown message, w).

(** [await m], then [k]. *)
Definition bind {A B} (m : Async A) (k : A -> Async B) : Async B :=
  fun w =>
    match m w with
    | (Returned a, w') => k a w'
    | (Thrown e, w') => (Thrown e, w')
    end.

(** [try { m } catch (e) { handler(e.message) }] *)
Definition try_catch {A} (m : Async A) (handler : string -> Async A)
  : Async A :=
  fun w =>
    match m w with
    | (Returned a, w') => (Returned a, w')
    | (Thrown e, w') => handler e w'
    end.

Declare Scope async_scope.
Delimit Scope async_scope with async.
Notation "x <- m ;; k" := (bind m (fun x => k))
  (at level 100, m at next level, right associativity) : async_scope.
Local Open Scope async_scope.

Definition sent (c : StoreCall) (w : World) : World :=
  mkWorld (know_base w) (query_logs w) (next_id w) (now w)
          (failing w) (calls w ++ [c]).

(** One database operation: recorded, then rejected or performed. *)
Definition store_call {A} (c : StoreCall) (op : World -> A * World)
  : Async A :=
  fun w =>
    match failing w c with
    | Some message => (Thrown message, sent c w)
    | None => let (a, w') := op (sent c w) in (Returned a, w')
    end.

(** A read leaves the state as it is. *)
Definition store_read {A} (c : StoreCall) (read : World -> A) : Async A :=
  store_call c (fun w => (read w, w)).


(** [.limit(1)] *)
Definition limit1 {A} (l : list A) : list A := firstn 1 l.

(** A descending sort, as [$sort] with [-1] and the text-score sort do it:
    [above y x] says that [y] ranks strictly above [x]. *)
Fixpoint insert_desc {A} (above : A -> A -> bool) (x : A) (l : list A)
  : list A :=
  match l with
  | [] => [x]
  | y :: r => if above y x then y :: insert_desc above x r else x :: l
  end.

Definition sort_desc {A} (above : A -> A -> bool) (l : list A) : list A :=
  fold_right (insert_desc above) [] l.

(** The order of a descending list: no later element ranks above an
    earlier one. *)
Definition descending {A} (above : A -> A -> bool) (a b : A) : Prop :=
  above b a = false.

(** [KB.create(fields)]: the document gets its [_id] and its [createdAt]. *)
Definition KB_create (question answer : string) (tags : list string)
           (source : string) : Async KB.doc :=
  store_call CreateKB (fun w =>
    let d := KB.mk (next_id w) question answer tags source (now w) in
    (d, mkWorld (know_base w ++ [d]) (query_logs w) (S (next_id w)) (now w)
                (failing w) (calls w))).

(** [Log.create(fields)] *)
Definition Log_create (query : string) (matchedDocId : option ObjectId)
           (score : option Q) (matchedBy : tier) : Async Log.doc :=
  store_call CreateLog (fun w =>
    let d := Log.mk (next_id w) query matchedDocId score matchedBy (now w) in
    (d, mkWorld (know_base w) (query_logs w ++ [d]) (S (next_id w)) (now w)
                (failing w) (calls w))).

(** The [$group] stage [{ _id: "$query", count: { $sum: 1 } }]: one group
    per distinct query, in the order of first occurrence. *)
Fixpoint bump (q : string) (groups : list (string * nat))
  : list (string * nat) :=
  match groups with
  | [] => [(q, 1)]
  | (q', n) :: rest =>
      if String.eqb q' q then (q', S n) :: rest else (q', n) :: bump q rest
  end.

Definition group_by_query (logs : list Log.doc) : list (string * nat) :=
  fold_left (fun groups d => bump (Log.query d) groups) logs [].

Definition count_above (y x : string * nat) : bool := (snd x <? snd y)%nat.

(** [Log.aggregate([$group, { $sort: { count: -1 } }, { $limit: 10 }])] *)
Definition Log_aggregate_top : Async (list (string * nat)) :=
  store_read AggregateLog (fun w =>
    firstn 10 (sort_desc count_above (group_by_query (query_logs w)))).

(* ================================================================== *)
(** ** HTTP responses *)

Inductive Body : Type :=
| ServiceBody                                   (* { ok, service } *)
| ErrorBody (error : string)                    (* { error } *)
| DocBody (d : KB.doc)                          (* the created document *)
| SearchBody (query : string) (tags : list string)
             (results : list (KB.doc * option Q))
| ChatMissBody (answer : string) (matchedBy : tier)
| ChatHitBody (answer source : string) (tags : list string)
              (matchedBy : tier) (score : option Q)
| TopQueriesBody (agg : list (string * nat)).   (* [{ _id, count }] *)

Record Response : Type := mkResponse { status : nat; body : Body }.

(** [res.json(b)] answers 200; [res.status(n).json(b)] answers [n]. *)
Definition json (b : Body) : Response := mkResponse 200 b.
Definition status_json (n : nat) (b : Body) : Response := mkResponse n b.

(** The [catch] block shared by the handlers. *)
Definition internal_error (message : string) : Async Response :=
  ret (status_json 500 (ErrorBody message)).

(* ================================================================== *)
(** ** The helpers and the routes of [server.js] *)

(** Request bodies and query strings; a field left out is [None]. *)
Record KbBody : Type := mkKbBody {
  kb_question : option string;
  kb_answer : option string;
  kb_tags : option (list string);
  kb_source : option string
}.

Record SearchQuery : Type := mkSearchQuery {
  search_q : option string;
  search_tags : option string
}.

Record ChatBody : Type := mkChatBody {
  chat_query : option string;
  chat_tags : option (list string)
}.

(** The [let] variables of the chat handler. *)
Record ChatVars : Type := mkChatVars {
  matchedBy : tier;
  top : option KB.doc;
  score : option Q
}.

Definition is_null {A} (o : option A) : bool :=
  match o with Some _ => false | None => true end.

(** [score || null]: a score of zero is falsy. *)
Definition score_or_null (s : option Q) : option Q :=
  match s with
  | Some x => if Qeq_bool x 0 then None else Some x
  | None => None
  end.

(** [tags ? String(tags).split(",").map(t => t.trim().toLowerCase()) : []] *)
Definition search_tag_list (tags : option string) : list string :=
  match tags with
  | Some tags =>
      if Js.truthy tags
      then map (fun t => Js.toLowerCase (Js.trim t)) (Js.split "," tags)
      else []
  | None => []
  end.

Definition fallback_answer : string := "Sorry, I don’t know yet.".

Section Server.

(** The relevance of a document for a [$text] search under the index
    [TextIdx_QA_Tags]: [None] when the document does not match. *)
Variable textScore : string -> KB.doc -> option Q.

Definition text_hits (query : string) (docs : list KB.doc)
  : list (KB.doc * Q) :=
  flat_map (fun d => match textScore query d with
                     | Some s => [(d, s)]
                     | None => []
                     end) docs.

Definition score_above (y x : KB.doc * Q) : bool :=
  negb (Qle_bool (snd y) (snd x)).

(** [.sort({ score: { $meta: "textScore" } }).limit(1)]: best first. *)
Definition text_lookup (query : string) (docs : list KB.doc)
  : list (KB.doc * Q) :=
  limit1 (sort_desc score_above (text_hits query docs)).

Definition textSearch (query : string) : Async (list (KB.doc * Q)) :=
  store_read (FindText query) (fun w => text_lookup query (know_base w)).

Definition regex_hit (rx : RegExp.regex) (d : KB.doc) : bool :=
  RegExp.test rx (KB.question d) || RegExp.test rx (KB.answer d).

Definition new_RegExp (source : string) : Async RegExp.regex :=
  match RegExp.compile source with
  | Some rx => ret rx
  | None => throw ("Invalid regular expression: " ++ source)
  end.

Definition regexFallback (query : string) : Async (list KB.doc) :=
  let safe := RegExp.escape query in
  rx <- new_RegExp safe ;;
  store_read (FindRegex safe) (fun w =>
    limit1 (filter (regex_hit rx) (know_base w))).

(** What [regexFallback] finds in [docs] when nothing fails. *)
Definition regex_lookup (query : string) (docs : list KB.doc)
  : list KB.doc :=
  match RegExp.compile (RegExp.escape query) with
  | Some rx => limit1 (filter (regex_hit rx) docs)
  | None => []
  end.

(** [{ tags: { $in: wanted } }]: some tag of the document is wanted. *)
Definition tag_hit (wanted : list string) (d : KB.doc) : bool :=
  existsb (fun t => existsb (String.eqb t) wanted) (KB.tags d).

(** [KB.find({ tags: { $in: ... } }).limit(1)].  When several records
    match, the one the store returns is taken in the order of [know_base]
    here; the store itself may follow the index on [tags]. *)
Definition tagFilter (tags : list string) : Async (list KB.doc) :=
  if negb (Js.nonempty tags) then ret []
  else
    let wanted := map Js.toLowerCase tags in
    store_read (FindTagsIn wanted) (fun w =>
      limit1 (filter (tag_hit wanted) (know_base w))).

(** What [tagFilter] finds in [docs] when nothing fails. *)
Definition tag_lookup (tags : list string) (docs : list KB.doc)
  : list KB.doc :=
  limit1 (filter (tag_hit (map Js.toLowerCase tags)) docs).

(** [app.get("/")] *)
Definition get_root : Async Response := ret (json ServiceBody).

(** [app.post("/kb")] *)
Definition post_kb (req : KbBody) : Async Response :=
  try_catch
    (let question := kb_question req in
     let answer := kb_answer req in
     let tags := Js.default [] (kb_tags req) in
     let source := Js.default "user" (kb_source req) in
     if negb (Js.truthy_opt question) || negb (Js.truthy_opt answer)
     then ret (status_json 400 (ErrorBody "question & answer required"))
     else
       doc <- KB_create (Js.default "" question) (Js.default "" answer)
                        (map Js.toLowerCase tags) source ;;
       ret (status_json 201 (DocBody doc)))
    internal_error.

Definition unscored (l : list KB.doc) : list (KB.doc * option Q) :=
  map (fun d => (d, None)) l.

Definition scored (l : list (KB.doc * Q)) : list (KB.doc * option Q) :=
  map (fun h => (fst h, Some (snd h))) l.

(** [app.get("/kb/search")] *)
Definition get_kb_search (req : SearchQuery) : Async Response :=
  try_catch
    (let q := Js.default "" (search_q req) in
     let tagList := search_tag_list (search_tags req) in
     let results := [] in
     results <- (if Js.truthy q
                 then r <- textSearch q ;; ret (scored r)
                 else ret results) ;;
     results <- (if negb (Js.nonempty results) && Js.truthy q
                 then r <- regexFallback q ;; ret (unscored r)
                 else ret results) ;;
     results <- (if negb (Js.nonempty results) && Js.nonempty tagList
                 then r <- tagFilter tagList ;; ret (unscored r)
                 else ret results) ;;
     ret (json (SearchBody q tagList results)))
    internal_error.

(** [app.post("/chat")] *)
Definition post_chat (req : ChatBody) : Async Response :=
  try_catch
    (let query := Js.default "" (chat_query req) in
     let tags := Js.default [] (chat_tags req) in
     let v := mkChatVars by_none None None in
     v <- (if Js.truthy query
           then
             textResults <- textSearch query ;;
             ret (match textResults with
                  | (d, s) :: _ => mkChatVars by_text (Some d) (Some s)
                  | [] => v
                  end)
           else ret v) ;;
     v <- (if is_null (top v) && Js.truthy query
           then
             rx <- regexFallback query ;;
             ret (match rx with
                  | d :: _ => mkChatVars by_regex (Some d) (score v)
                  | [] => v
                  end)
           else ret v) ;;
     v <- (if is_null (top v) && Js.nonempty tags
           then
             tg <- tagFilter tags ;;
             ret (match tg with
                  | d :: _ => mkChatVars by_tag (Some d) (score v)
                  | [] => v
                  end)
           else ret v) ;;
     _ <- Log_create query (option_map KB._id (top v))
                     (score_or_null (score v)) (matchedBy v) ;;
     match top v with
     | None => ret (json (ChatMissBody fallback_answer (matchedBy v)))
     | Some t =>
         ret (json (ChatHitBody (KB.answer t) (KB.source t) (KB.tags t)
                                (matchedBy v) (score v)))
     end)
    internal_error.

(** [app.get("/analytics/top-queries")] *)
Definition get_top_queries : Async Response :=
  try_catch
    (agg <- Log_aggregate_top ;;
     ret (json (TopQueriesBody agg)))
    internal_error.

(** Every route, as one request type. *)
Inductive Request : Type :=
| GetRoot
| PostKb (req : KbBody)
| GetKbSearch (req : SearchQuery)
| PostChat (req : ChatBody)
| GetTopQueries.

Definition handle (r : Request) : Async Response :=
  match r with
  | GetRoot => get_root
  | PostKb req => post_kb req
  | GetKbSearch req => get_kb_search req
  | PostChat req => post_chat req
  | GetTopQueries => get_top_queries
  end.

(** *** The Lookup Resolver, in the words of the specification

    Text first when the query is non-empty; then the escaped pattern when
    the query is non-empty; then the tags when there are tags; the first
    tier with a result decides, and only the text tier gives a score. *)
Definition spec_resolve (query : string) (tags : list string)
           (docs : list KB.doc) : ChatVars :=
  match (if Js.truthy query then text_lookup query docs else []) with
  | (d, s) :: _ => mkChatVars by_text (Some d) (Some s)
  | [] =>
      match (if Js.truthy query then regex_lookup query docs else []) with
      | d :: _ => mkChatVars by_regex (Some d) None
      | [] =>
          match (if Js.nonempty tags then tag_lookup tags docs else []) with
          | d :: _ => mkChatVars by_tag (Some d) None
          | [] => mkChatVars by_none None None
          end
      end
  end.

(** The searches a resolution sends, in order: a tier is tried only when
    its input is there and every tier before it came back empty. *)
Definition spec_tiers_tried (query : string) (tags : list string)
           (docs : list KB.doc) : list StoreCall :=
  let tag_tier :=
    if Js.nonempty tags then [FindTagsIn (map Js.toLowerCase tags)]
    else [] in
  if Js.truthy query then
    FindText query ::
      match text_lookup query docs with
      | _ :: _ => []
      | [] =>
          FindRegex (RegExp.escape query) ::
            match regex_lookup query docs with
            | _ :: _ => []
            | [] => tag_tier
            end
      end
  else tag_tier.

(** The output of a resolution: the record's answer, or the fallback. *)
Definition spec_response (v : ChatVars) : Response :=
  match top v with
  | Some t =>
      json (ChatHitBody (KB.answer t) (KB.source t) (KB.tags t)
                        (matchedBy v) (score v))
  | None => json (ChatMissBody fallback_answer (matchedBy v))
  end.

(** The results of [/kb/search] that correspond to a resolution. *)
Definition spec_results (v : ChatVars) : list (KB.doc * option Q) :=
  match top v with
  | Some t => [(t, score v)]
  | None => []
  end.

(** The entry a resolution [v] of [query] leaves in the log of [w]. *)
Definition log_entry (query : string) (v : ChatVars) (w : World) : Log.doc :=
  Log.mk (next_id w) query (option_map KB._id (top v))
         (score_or_null (score v)) (matchedBy v) (now w).

(** The state after a chat request that went through. *)
Definition after_chat (query : string) (tags : list string) (w : World)
  : World :=
  let v := spec_resolve query tags (know_base w) in
  mkWorld (know_base w) (query_logs w ++ [log_entry query v w])
          (S (next_id w)) (now w) (failing w)
          (calls w ++ spec_tiers_tried query tags (know_base w)
                 ++ [CreateLog]).

End Server.

(** The invariant of a log entry: no tier exactly when no record. *)
Definition log_invariant (e : Log.doc) : Prop :=
  Log.matchedBy e = by_none <-> Log.matchedDocId e = None.

(** The states the server can be in: it starts with an empty log, serves
    requests, and the database may change which operations it rejects. *)
Inductive reachable (textScore : string -> KB.doc -> option Q)
  : World -> Prop :=
| reach_start (w : World) :
    query_logs w = [] -> reachable textScore w
| reach_request (w : World) (r : Request) :
    reachable textScore w -> reachable textScore (snd (handle textScore r w))
| reach_outage (w : World) (f : StoreCall -> option string) :
    reachable textScore w ->
    reachable textScore
              (mkWorld (know_base w) (query_logs w) (next_id w) (now w)
                       f (calls w)).

(** The document [POST /kb] creates in [w] for a valid body. *)
Definition created_doc (question answer : string) (req : KbBody) (w : World)
  : KB.doc :=
  KB.mk (next_id w) question answer
        (map Js.toLowerCase (Js.default [] (kb_tags req)))
        (Js.default "user" (kb_source req)) (now w).

(** The count the groups hold for the query [q]. *)
Definition tally (q : string) (groups : list (string * nat)) : nat :=
  fold_right (fun g acc => if String.eqb (fst g) q then snd g + acc else acc)
             0 groups.

(** The number of log entries that carry the query [q]. *)
Definition query_count (q : string) (logs : list Log.doc) : nat :=
  List.length (filter (fun d => String.eqb (Log.query d) q) logs).

(* ================================================================== *)
(** ** A small instance, for the examples

    [wordScore] stands in for the text index: two points for every word of
    the search found in the question or in the answer, eight for a word that
    is a tag (the weights of [TextIdx_QA_Tags]). *)

Definition words (s : string) : list string :=
  filter Js.truthy (Js.split " " (Js.toLowerCase s)).

Definition hits (wanted field : list string) : nat :=
  List.length (filter (fun x => existsb (String.eqb x) field) wanted).

Definition wordScore (search : string) (d : KB.doc) : option Q :=
  let ws := words search in
  let n := 2 * hits ws (words (KB.question d))
           + 2 * hits ws (words (KB.answer d))
           + 8 * hits ws (KB.tags d) in
  match n with
  | O => None
  | S _ => Some (inject_Z (Z.of_nat n))
  end.

Definition orientation : KB.doc :=
  KB.mk 1 "When is orientation?" "Sept 1" ["orientation"] "user" 1000%Z.

Definition parking : KB.doc :=
  KB.mk 2 "Where can I park?" "Lot C++ behind the gym" ["parking"]
        "user" 2000%Z.

Definition no_failure (_ : StoreCall) : option string := None.

Definition log_down (c : StoreCall) : option string :=
  match c with
  | CreateLog => Some "query_logs unavailable"
  | _ => None
  end.

Definition kb_down (c : StoreCall) : option string :=
  match c with
  | FindText _ | FindRegex _ | FindTagsIn _ | CreateKB =>
      Some "know_base unavailable"
  | _ => None
  end.

Definition campus : World :=
  mkWorld [orientation; parking] [] 3 5000%Z no_failure [].

Definition campus_log_down : World :=
  mkWorld [orientation; parking] [] 3 5000%Z log_down [].

Definition campus_kb_down : World :=
  mkWorld [orientation; parking] [] 3 5000%Z kb_down [].



Definition empty_world : World := mkWorld [] [] 0 0%Z no_failure [].

Definition ask (query : string) : ChatBody := mkChatBody (Some query) None.

Definition ask_tags (tags : list string) : ChatBody :=
  mkChatBody (Some "") (Some tags).


Definition add_parking : KbBody :=
  mkKbBody (Some "Where can I park?") (Some "Lot C++ behind the gym")
           (Some ["Parking"]) None.

Definition past_entry (id : ObjectId) (query : string) : Log.doc :=
  Log.mk id query None None by_none 4000%Z.

(** The campus after five chats. *)
Definition busy_campus : World :=
  mkWorld [orientation; parking]
          [past_entry 3 "parking"; past_entry 4 "c++"; past_entry 5 "parking";
           past_entry 6 "exams"; past_entry 7 "parking"]
          8 5000%Z no_failure [].

(* ================================================================== *)
(** ** The states served from empty collections *)

(** The server starts on empty collections, serves requests, and the
    database may change which operations it rejects. *)
Inductive served (textScore : string -> KB.doc -> option Q)
  : World -> Prop :=
| served_start (w : World) :
    know_base w = [] -> query_logs w = [] -> served textScore w
| served_request (w : World) (r : Request) :
    served textScore w -> served textScore (snd (handle textScore r w))
| served_outage (w : World) (f : StoreCall -> option string) :
    served textScore w ->
    served textScore
           (mkWorld (know_base w) (query_logs w) (next_id w) (now w)
                    f (calls w)).

(** What [POST /kb] lets into the knowledge base: a question and an answer
    that are not empty, and tags that lower-casing leaves as they are. *)
Definition well_formed_record (d : KB.doc) : Prop :=
  KB.question d <> ""
  /\ KB.answer d <> ""
  /\ map Js.toLowerCase (KB.tags d) = KB.tags d.

(** A log entry that names a record names one of [docs], and an entry with
    a score is an entry of the text tier. *)
Definition log_refers (docs : list KB.doc) (e : Log.doc) : Prop :=
  (forall id, Log.matchedDocId e = Some id ->
              exists d, In d docs /\ KB._id d = id)
  /\ (Log.score e <> None -> Log.matchedBy e = by_text).

(** The sum of the counts of an aggregate. *)
Definition total_count (agg : list (string * nat)) : nat :=
  fold_right (fun g acc => snd g + acc) 0 agg.

(* ================================================================== *)
(** ** The chat widget ([ChatInterface.jsx]) *)

Inductive Sender : Type := from_user | from_bot.

Record Message : Type := mkMessage { text : string; sender : Sender }.

(** The three [useState] cells of [ChatInterface]. *)
Record Widget : Type := mkWidget {
  messages : list Message;
  input : string;
  isLoading : bool
}.

Definition greeting : string :=
  "Hello! I'm the Event Chatbot. How can I help you?".

Definition trouble_text : string :=
  "I seem to be having trouble connecting. Please try again.".

Definition error_text : string :=
  "An error occurred. Please check the backend connection.".

Definition initial_widget : Widget :=
  mkWidget [mkMessage greeting from_bot] "" false.

(** [onChange={(e) => setInput(e.target.value)}] *)
Definition type_input (value : string) (wd : Widget) : Widget :=
  mkWidget (messages wd) value (isLoading wd).

(** [disabled={isLoading || !input.trim()}] of the Send button. *)
Definition send_disabled (wd : Widget) : bool :=
  isLoading wd || negb (Js.truthy (Js.trim (input wd))).

(** What becomes of a request on its way: it is served and answered, it
    never reaches the server, or it is served and the reply is lost. *)
Inductive Link : Type := LinkUp | LinkDown | ReplyLost.

(** [response.ok]: a status from 200 to 299. *)
Definition response_ok (r : Response) : bool :=
  (200 <=? status r)%nat && (status r <=? 299)%nat.

(** [data.answer]: [undefined] on a body without that field. *)
Definition data_answer (b : Body) : option string :=
  match b with
  | ChatHitBody answer _ _ _ _ => Some answer
  | ChatMissBody answer _ => Some answer
  | _ => None
  end.

Definition status_text (n : nat) : string :=
  NilEmpty.string_of_uint (Nat.to_uint n).

Section Client.

Variable textScore : string -> KB.doc -> option Q.

(** [fetch(`${BACKEND_URL}/chat`, { method: 'POST', body })] *)
Definition fetch_chat (link : Link) (body : ChatBody) : Async Response :=
  fun w =>
    match link with
    | LinkUp => post_chat textScore body w
    | LinkDown => (Thrown "Failed to fetch", w)
    | ReplyLost => (Thrown "Failed to fetch", snd (post_chat textScore body w))
    end.

(** [sendMessage], from the submit of the form to the [finally] block. *)
Definition sendMessage (link : Link) (wd : Widget) (w : World)
  : Widget * World :=
  let userQuery := Js.trim (input wd) in
  if negb (Js.truthy userQuery) then (wd, w)
  else
    let newUserMessage := mkMessage userQuery from_user in
    let wd := mkWidget (messages wd ++ [newUserMessage]) "" true in
    let attempt : Async Widget :=
      try_catch
        (response <- fetch_chat link
                                (mkChatBody (Some userQuery) (Some [])) ;;
         if negb (response_ok response)
         then throw ("HTTP error! status: " ++ status_text (status response))
         else
           let data := body response in
           let botResponse :=
             mkMessage (if Js.truthy_opt (data_answer data)
                        then Js.default "" (data_answer data)
                        else trouble_text)
                       from_bot in
           ret (mkWidget (messages wd ++ [botResponse])
                         (input wd) (isLoading wd)))
        (fun _ =>
           ret (mkWidget (messages wd ++ [mkMessage error_text from_bot])
                         (input wd) (isLoading wd))) in
    match attempt w with
    | (Returned wd', w') => (mkWidget (messages wd') (input wd') false, w')
    | (Thrown _, w') => (mkWidget (messages wd) (input wd) false, w')
    end.

End Client.

(* ================================================================== *)
(** ** More of the campus, for the examples *)

(** The empty server after a record was added and asked for by its tag. *)
Definition parking_world : World :=
  snd (handle wordScore (PostKb add_parking) empty_world).

Definition chatted_world : World :=
  snd (handle wordScore (PostChat (ask_tags ["Parking"])) parking_world).

(** The widget with a question typed in, spaces around it. *)
Definition typing : Widget := type_input "  c+ " initial_widget.

(* ================================================================== *)
(** ** Lists: prefixes and descending sorts *)

Section ListFacts.

Context {A : Type}.

Lemma in_firstn (n : nat) (l : list A) (x : A) :
  In x (firstn n l) -> In x l.
Proof.
  intros H. rewrite <- (firstn_skipn n l). apply in_or_app. now left.
Qed.

Lemma NoDup_firstn (n : nat) (l : list A) : NoDup l -> NoDup (firstn n l).
Proof.
  intros H. rewrite <- (firstn_skipn n l) in H.
  now apply NoDup_app_remove_r in H.
Qed.

Lemma StronglySorted_app_order (R : A -> A -> Prop) (l1 l2 : list A) :
  StronglySorted R (l1 ++ l2) ->
  StronglySorted R l1 /\ forall x y, In x l1 -> In y l2 -> R x y.
Proof.
  induction l1 as [| a l1 IH]; cbn [app]; intros H.
  - split; [constructor | intros x y []].
  - apply StronglySorted_inv in H as [Hs Ha].
    destruct (IH Hs) as [Hs1 Hord]. split.
    + constructor; [exact Hs1 |].
      apply Forall_forall. intros x Hx.
      rewrite Forall_forall in Ha. apply Ha, in_or_app. now left.
    + intros x y [-> | Hx] Hy.
      * rewrite Forall_forall in Ha. apply Ha, in_or_app. now right.
      * now apply Hord.
Qed.

Lemma StronglySorted_firstn (R : A -> A -> Prop) (n : nat) (l : list A) :
  StronglySorted R l -> StronglySorted R (firstn n l).
Proof.
  intros H. rewrite <- (firstn_skipn n l) in H.
  now apply StronglySorted_app_order in H.
Qed.

Lemma StronglySorted_weaken (R R' : A -> A -> Prop) (l : list A) :
  (forall x y, R x y -> R' x y) ->
  StronglySorted R l -> StronglySorted R' l.
Proof.
  intros HR H. induction H as [| a l Hs IH Ha]; constructor.
  - exact IH.
  - revert Ha. apply Forall_impl. intros y. apply HR.
Qed.

(** A descending sort by a strict ranking [above]. *)
Variable above : A -> A -> bool.
Hypothesis above_asym : forall x y, above y x = true -> above x y = false.
Hypothesis below_trans :
  forall x y z, above z y = false -> above y x = false -> above z x = false.

Lemma insert_desc_perm (x : A) (l : list A) :
  Permutation (insert_desc above x l) (x :: l).
Proof.
  induction l as [| y l IH]; cbn [insert_desc]; [reflexivity |].
  destruct (above y x); [| reflexivity].
  rewrite IH. apply perm_swap.
Qed.

Lemma sort_desc_perm (l : list A) : Permutation (sort_desc above l) l.
Proof.
  induction l as [| x l IH]; cbn [sort_desc fold_right]; [reflexivity |].
  fold (sort_desc above l). rewrite insert_desc_perm. now constructor.
Qed.

Lemma insert_desc_sorted (x : A) (l : list A) :
  StronglySorted (descending above) l ->
  StronglySorted (descending above) (insert_desc above x l).
Proof.
  induction 1 as [| y l Hs IH Hy]; cbn [insert_desc].
  - constructor; constructor.
  - destruct (above y x) eqn:E.
    + constructor; [exact IH |].
      apply Forall_forall. intros z Hz.
      apply (Permutation_in _ (insert_desc_perm x l)) in Hz.
      destruct Hz as [<- | Hz].
      * apply above_asym, E.
      * rewrite Forall_forall in Hy. now apply Hy.
    + constructor; [now constructor |].
      constructor; [exact E |].
      revert Hy. apply Forall_impl. intros z Hz.
      unfold descending in *. now apply below_trans with (y := y).
Qed.

Lemma sort_desc_sorted (l : list A) :
  StronglySorted (descending above) (sort_desc above l).
Proof.
  induction l as [| x l IH]; cbn [sort_desc fold_right]; [constructor |].
  now apply insert_desc_sorted.
Qed.

End ListFacts.

(* ================================================================== *)
Lemma store_call_ok {A} (c : StoreCall) (op : World -> A * World) (w : World) :
  failing w c = None ->
  store_call c op w
  = (Returned (fst (op (sent c w))), snd (op (sent c w))).
Proof.
  intros H. unfold store_call. rewrite H.
  destruct (op (sent c w)); reflexivity.
Qed.

Lemma store_call_rejected {A} (c : StoreCall) (op : World -> A * World)
      (w : World) (m : string) :
  failing w c = Some m ->
  store_call c op w = (Thrown m, sent c w).
Proof. intros H. unfold store_call. rewrite H. reflexivity. Qed.

Lemma store_read_ok {A} (c : StoreCall) (read : World -> A) (w : World) :
  failing w c = None ->
  store_read c read w = (Returned (read (sent c w)), sent c w).
Proof. intros H. unfold store_read. rewrite store_call_ok by exact H. reflexivity. Qed.

Lemma store_read_rejected {A} (c : StoreCall) (read : World -> A)
      (w : World) (m : string) :
  failing w c = Some m ->
  store_read c read w = (Thrown m, sent c w).
Proof. intros H. unfold store_read. apply store_call_rejected, H. Qed.

(** *** The first rejected operation *)





(* ================================================================== *)
(** ** The escaped pattern is a literal *)

Module RegExpFacts.
Import RegExp.

Lemma syntax_char_not_alnum (c : ascii) :
  is_syntax_char c = true -> is_alnum c = false.
Proof.
  unfold is_syntax_char. simpl. intros H.
  repeat (apply orb_true_iff in H; destruct H as [H | H];
          [apply Ascii.eqb_eq in H; subst c; reflexivity |]).
  discriminate.
Qed.

Lemma escape_token_syntax_char (c : ascii) :
  is_syntax_char c = true -> escape_token c = Some (TChar c).
Proof.
  intros H. unfold escape_token.
  rewrite (syntax_char_not_alnum c H). reflexivity.
Qed.

(** An ordinary character is a token of its own. *)
Lemma lex_plain_char (c : ascii) (r : list ascii) (fuel : nat) :
  is_syntax_char c = false ->
  lex (S fuel) (c :: r) = option_map (cons (TChar c)) (lex fuel r).
Proof.
  unfold is_syntax_char. simpl. intros H.
  repeat (apply orb_false_iff in H; destruct H as [?E H]).
  repeat match goal with
         | E : Ascii.eqb c _ = false |- _ => rewrite ?E; clear E
         end.
  reflexivity.
Qed.

(** A backslash and a syntax character are one token: that character. *)
Lemma lex_escaped_char (c : ascii) (r : list ascii) (fuel : nat) :
  is_syntax_char c = true ->
  lex (S fuel) ("\"%char :: c :: r)
  = option_map (cons (TChar c)) (lex fuel r).
Proof.
  intros H. simpl. rewrite (escape_token_syntax_char c H). reflexivity.
Qed.

Lemma escape_length (q : string) :
  String.length q <= String.length (escape q).
Proof.
  unfold escape. induction q as [| c q IH]; simpl; [lia|].
  destruct (is_syntax_char c); simpl; lia.
Qed.

(** Every token of the escaped query is a character of the query. *)
Lemma lex_escape (q : string) :
  forall fuel, String.length q <= fuel ->
  lex fuel (Js.chars (escape q)) = Some (map TChar (Js.chars q)).
Proof.
  unfold escape. induction q as [| c q IH]; intros fuel Hf.
  - destruct fuel; reflexivity.
  - destruct fuel as [| fuel]; [simpl in Hf; lia|].
    simpl in Hf. assert (Hq : String.length q <= fuel) by lia.
    cbn [Js.replace_class].
    destruct (is_syntax_char c) eqn:E.
    + change (Js.chars (backslashed c ++ Js.replace_class is_syntax_char backslashed q))
        with ("\"%char :: c :: Js.chars (Js.replace_class is_syntax_char backslashed q)).
      rewrite lex_escaped_char by exact E.
      rewrite (IH fuel Hq). reflexivity.
    + change (Js.chars (String c (Js.replace_class is_syntax_char backslashed q)))
        with (c :: Js.chars (Js.replace_class is_syntax_char backslashed q)).
      rewrite lex_plain_char by exact E.
      rewrite (IH fuel Hq). reflexivity.
Qed.

(** Characters only pile up as atoms of the open alternative. *)
Lemma parse_chars (l : list ascii) :
  forall f stack,
    parse (map TChar l) f stack
    = parse [] (mkFrame (alts f) (rev (map Chr l) ++ terms f)
                        (match l with [] => last f | _ :: _ => Atom end))
            stack.
Proof.
  induction l as [| c l IH]; intros f stack.
  - simpl. destruct f; reflexivity.
  - cbn [map parse]. rewrite IH. unfold push_atom. cbn [alts terms last].
    cbn [rev map]. rewrite <- app_assoc. simpl.
    destruct l; reflexivity.
Qed.

Lemma parse_literal (s : string) :
  parse (map TChar (Js.chars s)) empty_frame [] = Some (literal s).
Proof.
  rewrite parse_chars. cbn [parse alts terms empty_frame].
  unfold literal, close_frame. cbn [alts terms fold_left].
  rewrite app_nil_r, rev_involutive. reflexivity.
Qed.

(** [new RegExp] never throws on an escaped query, and yields the
    literal of the query. *)
Lemma compile_escape (q : string) :
  compile (escape q) = Some (literal q).
Proof.
  unfold compile.
  rewrite lex_escape by apply escape_length.
  apply parse_literal.
Qed.

(** *** What a literal matches *)

Lemma chr_matches_iff (p c : ascii) :
  chr_matches p c = true <-> Js.lower_char c = Js.lower_char p.
Proof.
  unfold chr_matches. rewrite Ascii.eqb_eq. split; intros H; now rewrite H.
Qed.

Lemma ci_prefix_nil (hay : list ascii) : Js.ci_prefix [] hay.
Proof. exists (map Js.lower_char hay). reflexivity. Qed.

Lemma ci_prefix_cons (c : ascii) (l : list ascii) (a : ascii)
      (hay : list ascii) :
  Js.ci_prefix (c :: l) (a :: hay)
  <-> Js.lower_char a = Js.lower_char c /\ Js.ci_prefix l hay.
Proof.
  unfold Js.ci_prefix. simpl. split.
  - intros [post H]. injection H as H1 H2. split; [exact H1 | now exists post].
  - intros [H1 [post H2]]. exists post. now rewrite H1, H2.
Qed.

Lemma ci_prefix_empty_hay (c : ascii) (l : list ascii) :
  ~ Js.ci_prefix (c :: l) [].
Proof. intros [post H]. discriminate H. Qed.

(** A literal matches at a position exactly when its characters are read
    there, up to case. *)
Lemma matches_at_literal (l : list ascii) :
  forall b hay,
    matches_at (seq_of (map Chr l)) (b, hay) = true <-> Js.ci_prefix l hay.
Proof.
  induction l as [| c l IH]; intros b hay.
  - simpl. split; [intros _; apply ci_prefix_nil | reflexivity].
  - unfold matches_at. cbn [map seq_of fold_right run snd].
    destruct hay as [| a hay].
    + simpl. split; [discriminate | intros H; elim (ci_prefix_empty_hay H)].
    + rewrite ci_prefix_cons. destruct (chr_matches c a) eqn:E.
      * cbn [flat_map]. rewrite app_nil_r.
        apply chr_matches_iff in E.
        specialize (IH false hay). unfold matches_at in IH.
        change (fold_right Seq Eps (map Chr l)) with (seq_of (map Chr l)).
        rewrite IH. tauto.
      * simpl. split; [discriminate|]. intros [H _].
        apply chr_matches_iff in H. congruence.
Qed.

(** The search tries every offset. *)
Lemma search_literal (l : list ascii) :
  forall b hay,
    search (seq_of (map Chr l)) b hay = true
    <-> exists pre post,
        map Js.lower_char hay = (pre ++ map Js.lower_char l ++ post)%list.
Proof.
  intros b hay. revert b.
  induction hay as [| a hay IH]; intros b; cbn [search];
    rewrite orb_true_iff, matches_at_literal.
  - split.
    + intros [[post H] | H]; [| discriminate]. now exists [], post.
    + intros [pre [post H]]. left.
      destruct pre; [now exists post | discriminate].
  - rewrite IH. split.
    + intros [[post H] | [pre [post H]]].
      * now exists [], post.
      * exists (Js.lower_char a :: pre), post. simpl. now rewrite H.
    + intros [pre [post H]]. destruct pre as [| x pre].
      * left. now exists post.
      * right. simpl in H. injection H as _ H. now exists pre, post.
Qed.

Lemma test_literal (q subject : string) :
  test (literal q) subject = true <-> Js.ci_substring q subject.
Proof. unfold test, literal, Js.ci_substring. apply search_literal. Qed.

End RegExpFacts.

Section ServerFacts.

Variable textScore : string -> KB.doc -> option Q.

Lemma limit1_single {A} (l : list A) (x : A) (rest : list A) :
  limit1 l = x :: rest -> rest = [].
Proof.
  destruct l as [| y l]; [discriminate |].
  unfold limit1. simpl. intros H. now injection H.
Qed.

Lemma text_lookup_single (q : string) (docs : list KB.doc) h rest :
  text_lookup textScore q docs = h :: rest -> rest = [].
Proof. apply limit1_single. Qed.

Lemma regex_lookup_single (q : string) (docs : list KB.doc) d rest :
  regex_lookup q docs = d :: rest -> rest = [].
Proof.
  unfold regex_lookup. destruct (RegExp.compile (RegExp.escape q));
    [apply limit1_single | discriminate].
Qed.

Lemma tag_lookup_single (tags : list string) (docs : list KB.doc) d rest :
  tag_lookup tags docs = d :: rest -> rest = [].
Proof. apply limit1_single. Qed.

Lemma textSearch_ok (q : string) (w : World) :
  failing w (FindText q) = None ->
  textSearch textScore q w
  = (Returned (text_lookup textScore q (know_base w)), sent (FindText q) w).
Proof. intros H. unfold textSearch. rewrite store_read_ok by exact H. reflexivity. Qed.

Lemma textSearch_rejected (q : string) (w : World) (m : string) :
  failing w (FindText q) = Some m ->
  textSearch textScore q w = (Thrown m, sent (FindText q) w).
Proof. intros H. unfold textSearch. apply store_read_rejected, H. Qed.

Lemma regexFallback_ok (q : string) (w : World) :
  failing w (FindRegex (RegExp.escape q)) = None ->
  regexFallback q w
  = (Returned (regex_lookup q (know_base w)),
     sent (FindRegex (RegExp.escape q)) w).
Proof.
  intros H. unfold regexFallback, new_RegExp, regex_lookup, bind.
  rewrite RegExpFacts.compile_escape. unfold ret.
  rewrite store_read_ok by exact H. reflexivity.
Qed.

Lemma regexFallback_rejected (q : string) (w : World) (m : string) :
  failing w (FindRegex (RegExp.escape q)) = Some m ->
  regexFallback q w = (Thrown m, sent (FindRegex (RegExp.escape q)) w).
Proof.
  intros H. unfold regexFallback, new_RegExp, bind.
  rewrite RegExpFacts.compile_escape. unfold ret.
  rewrite store_read_rejected with (m := m) by exact H. reflexivity.
Qed.

Lemma tagFilter_ok (tags : list string) (w : World) :
  Js.nonempty tags = true ->
  failing w (FindTagsIn (map Js.toLowerCase tags)) = None ->
  tagFilter tags w
  = (Returned (tag_lookup tags (know_base w)),
     sent (FindTagsIn (map Js.toLowerCase tags)) w).
Proof.
  intros Hn H. unfold tagFilter. rewrite Hn. cbn [negb].
  rewrite store_read_ok by exact H. reflexivity.
Qed.

Lemma tagFilter_rejected (tags : list string) (w : World) (m : string) :
  Js.nonempty tags = true ->
  failing w (FindTagsIn (map Js.toLowerCase tags)) = Some m ->
  tagFilter tags w
  = (Thrown m, sent (FindTagsIn (map Js.toLowerCase tags)) w).
Proof.
  intros Hn H. unfold tagFilter. rewrite Hn. cbn [negb].
  apply store_read_rejected, H.
Qed.

(** One step of a handler: the next database operation either goes
    through or is rejected. *)
Ltac store_step w :=
  match goal with
  | |- context [textSearch textScore ?q ?w0] =>
      let F := fresh "Ftext" in
      destruct (failing w (FindText q)) as [?m |] eqn:F;
      [ rewrite (@textSearch_rejected q w0 _ F)
      | rewrite (@textSearch_ok q w0 F) ]
  | |- context [regexFallback ?q ?w0] =>
      let F := fresh "Fregex" in
      destruct (failing w (FindRegex (RegExp.escape q))) as [?m |] eqn:F;
      [ rewrite (@regexFallback_rejected q w0 _ F)
      | rewrite (@regexFallback_ok q w0 F) ]
  | |- context [tagFilter ?t ?w0] =>
      let F := fresh "Ftag" in
      destruct (failing w (FindTagsIn (map Js.toLowerCase t)))
        as [?m |] eqn:F;
      [ rewrite (@tagFilter_rejected t w0 _ ltac:(assumption) F)
      | rewrite (@tagFilter_ok t w0 ltac:(assumption) F) ]
  | |- context [store_call CreateLog ?op ?w0] =>
      let F := fresh "Flog" in
      destruct (failing w CreateLog) as [?m |] eqn:F;
      [ rewrite (@store_call_rejected _ CreateLog op w0 _ F)
      | rewrite (@store_call_ok _ CreateLog op w0 F) ]
  end;
  cbv beta iota delta [ret Log_create internal_error];
  cbn [know_base sent is_null top andb fst snd].

(** Every chat request is answered: with the resolution of the
    specification and one more log entry, or with status 500, the message
    of the rejected operation, and the log as it was. *)
Lemma post_chat_cases (req : ChatBody) (w : World) :
  let query := Js.default "" (chat_query req) in
  let tags := Js.default [] (chat_tags req) in
  (failing w CreateLog = None
   /\ post_chat textScore req w
      = (Returned (spec_response
                     (spec_resolve textScore query tags (know_base w))),
         after_chat textScore query tags w))
  \/ exists c m,
      failing w c = Some m
      /\ fst (post_chat textScore req w)
         = Returned (status_json 500 (ErrorBody m))
      /\ query_logs (snd (post_chat textScore req w)) = query_logs w
      /\ know_base (snd (post_chat textScore req w)) = know_base w.
Proof.
  intros query tags.
  unfold post_chat, try_catch, bind, after_chat, spec_resolve,
    spec_tiers_tried, spec_response, log_entry.
  fold query. fold tags.
  destruct (Js.truthy query) eqn:Eq;
    cbv beta iota delta [ret Log_create]; cbn [is_null top andb].
  all: repeat
         (first
            [ store_step w
            | match goal with
              | |- context [match text_lookup textScore ?q ?d with _ => _ end] =>
                  destruct (text_lookup textScore q d) as [| [? ?] ?] eqn:?
              | |- context [match regex_lookup ?q ?d with _ => _ end] =>
                  destruct (regex_lookup q d) as [| ? ?] eqn:?
              | |- context [match tag_lookup ?q ?d with _ => _ end] =>
                  destruct (tag_lookup q d) as [| ? ?] eqn:?
              | |- context [if Js.nonempty ?t then _ else _] =>
                  destruct (Js.nonempty t) eqn:?
              end;
              cbv beta iota delta [ret Log_create];
              cbn [is_null top andb] ]).
  all: try (left; split; [first [assumption | reflexivity] |];
            cbn; rewrite <- ?app_assoc; reflexivity).
  all: right; do 2 eexists; cbn [fst snd query_logs know_base sent];
    (split; [eassumption | split; [reflexivity | split; reflexivity]]).
Qed.

(** In a healthy world the chat handler is the resolver of the
    specification, followed by one log write. *)
Lemma post_chat_healthy (req : ChatBody) (w : World) :
  healthy w ->
  let query := Js.default "" (chat_query req) in
  let tags := Js.default [] (chat_tags req) in
  post_chat textScore req w
  = (Returned (spec_response
                 (spec_resolve textScore query tags (know_base w))),
     after_chat textScore query tags w).
Proof.
  intros H query tags.
  destruct (post_chat_cases req w) as [[_ E] | [c [m [Hc _]]]].
  - exact E.
  - rewrite H in Hc. discriminate Hc.
Qed.


(** *** Facts about a resolution *)

Lemma spec_resolve_none_iff (query : string) (tags : list string)
      (docs : list KB.doc) :
  let v := spec_resolve textScore query tags docs in
  matchedBy v = by_none <-> top v = None.
Proof.
  unfold spec_resolve.
  destruct (if Js.truthy query then text_lookup textScore query docs else [])
    as [| [d s] l];
    [ destruct (if Js.truthy query then regex_lookup query docs else [])
        as [| d l];
      [ destruct (if Js.nonempty tags then tag_lookup tags docs else [])
          as [| d l] | ] | ];
    cbn; split; intros H; try reflexivity; discriminate H.
Qed.

Lemma spec_resolve_score (query : string) (tags : list string)
      (docs : list KB.doc) :
  let v := spec_resolve textScore query tags docs in
  (matchedBy v = by_text -> exists s, score v = Some s)
  /\ (matchedBy v <> by_text -> score v = None).
Proof.
  unfold spec_resolve.
  destruct (if Js.truthy query then text_lookup textScore query docs else [])
    as [| [d s] l];
    [ destruct (if Js.truthy query then regex_lookup query docs else [])
        as [| d l];
      [ destruct (if Js.nonempty tags then tag_lookup tags docs else [])
          as [| d l] | ] | ];
    cbn; split; intros H; try reflexivity; try discriminate H;
    try (now eexists); now elim H.
Qed.

Lemma log_entry_invariant (query : string) (tags : list string)
      (w : World) :
  log_invariant
    (log_entry query (spec_resolve textScore query tags (know_base w)) w).
Proof.
  unfold log_invariant, log_entry. cbn [Log.matchedBy Log.matchedDocId].
  rewrite (spec_resolve_none_iff query tags (know_base w)).
  destruct (top (spec_resolve textScore query tags (know_base w)));
    cbn; split; intros H; try reflexivity; discriminate H.
Qed.

Lemma healthy_after_chat (query : string) (tags : list string) (w : World) :
  healthy w -> healthy (after_chat textScore query tags w).
Proof. intros H c. apply H. Qed.

(** *** The chat route *)


(** C2: in a world where the database performs what it is sent, POST
    /chat answers with the resolution of the specification (text first,
    then the escaped pattern, then the tags; the first tier with a result
    decides) and sends exactly the searches of the tiers tried, in that
    order, before the one log write.  In particular a text match wins
    whatever the later tiers would find, and carries its score; a regex
    or tag match carries none. *)
Theorem chat_tiers_in_priority_order (req : ChatBody) (w : World) :
  healthy w ->
  let query := Js.default "" (chat_query req) in
  let tags := Js.default [] (chat_tags req) in
  let docs := know_base w in
  let v := spec_resolve textScore query tags docs in
  let r := post_chat textScore req w in
  fst r = Returned (spec_response v)
  /\ calls (snd r)
     = calls w ++ spec_tiers_tried textScore query tags docs ++ [CreateLog]
  /\ (forall d s l,
         Js.truthy query = true ->
         text_lookup textScore query docs = (d, s) :: l ->
         fst r = Returned (json (ChatHitBody (KB.answer d) (KB.source d)
                                             (KB.tags d) by_text (Some s)))
         /\ calls (snd r) = calls w ++ [FindText query; CreateLog])
  /\ (matchedBy v = by_regex \/ matchedBy v = by_tag -> score v = None).
Proof.
  intros H query tags docs v r.
  pose proof (post_chat_healthy req H) as E. cbv zeta in E.
  fold query tags docs v r in E.
  split; [now rewrite E |]. split; [now rewrite E |]. split.
  - intros d s l Hq Ht. rewrite E. cbn [fst snd].
    unfold v, spec_resolve, after_chat, spec_tiers_tried.
    fold docs. rewrite Hq, Ht. split; reflexivity.
  - intros Hm. apply (spec_resolve_score query tags docs).
    fold v. destruct Hm as [Hm | Hm]; rewrite Hm; discriminate.
Qed.



(** C4: whatever happens to a POST /chat request, the entries it adds to
    the log have tier none exactly when they name no matched record. *)
Theorem chat_entries_keep_invariant (req : ChatBody) (w : World) :
  exists new,
    query_logs (snd (post_chat textScore req w)) = query_logs w ++ new
    /\ Forall log_invariant new.
Proof.
  destruct (post_chat_cases req w) as [[_ E] | [c [m [_ [_ [E _]]]]]].
  - rewrite E. cbn [snd after_chat query_logs]. eexists. split; [reflexivity |].
    constructor; [apply log_entry_invariant | constructor].
  - exists []. rewrite E, app_nil_r. split; [reflexivity | constructor].
Qed.

(** C8: the response of POST /chat depends on the request and on the
    knowledge base only; two requests with the same query and tags, made
    in healthy worlds with the same knowledge base (the second may come
    after the first, which changes the log only), get the same response:
    the same answer, tier and score. *)
Theorem chat_is_deterministic (req : ChatBody) (w1 w2 : World) :
  healthy w1 -> healthy w2 ->
  know_base w1 = know_base w2 ->
  fst (post_chat textScore req w1) = fst (post_chat textScore req w2).
Proof.
  intros H1 H2 Hk.
  rewrite (post_chat_healthy req H1), (post_chat_healthy req H2).
  cbn [fst]. now rewrite Hk.
Qed.

(** A chat request leaves the knowledge base alone and a healthy world
    healthy: the request may be repeated. *)
Lemma chat_repeatable (req : ChatBody) (w : World) :
  healthy w ->
  let w' := snd (post_chat textScore req w) in
  healthy w' /\ know_base w' = know_base w.
Proof.
  intros H. cbv zeta. rewrite (post_chat_healthy req H). cbn [snd].
  split; [apply healthy_after_chat, H | reflexivity].
Qed.

(** *** [/kb/search] and the other routes *)

Ltac search_cases w :=
  unfold get_kb_search, try_catch, bind;
  match goal with
  | |- context [Js.truthy ?q] => destruct (Js.truthy q) eqn:?
  end;
  cbv beta iota delta [ret]; cbn [Js.nonempty negb andb];
  repeat
    (first
       [ store_step w
       | match goal with
         | |- context [text_lookup textScore ?q ?d] =>
             let E := fresh "Etext" in
             destruct (text_lookup textScore q d) as [| [? ?] ?] eqn:E;
             [| pose proof (text_lookup_single _ _ E); subst]
         | |- context [regex_lookup ?q ?d] =>
             let E := fresh "Eregex" in
             destruct (regex_lookup q d) as [| ? ?] eqn:E;
             [| pose proof (regex_lookup_single _ _ E); subst]
         | |- context [tag_lookup ?q ?d] =>
             let E := fresh "Etag" in
             destruct (tag_lookup q d) as [| ? ?] eqn:E;
             [| pose proof (tag_lookup_single _ _ E); subst]
         | |- context [if Js.nonempty ?t then _ else _] =>
             destruct (Js.nonempty t) eqn:?
         | |- context [if _ && Js.nonempty ?t then _ else _] =>
             destruct (Js.nonempty t) eqn:?
         end ];
     cbv beta iota delta [ret];
     cbn [Js.nonempty negb andb scored unscored map fst snd]).

(** A search reads: neither collection changes, whatever fails. *)
Lemma get_kb_search_frame (req : SearchQuery) (w : World) :
  query_logs (snd (get_kb_search textScore req w)) = query_logs w
  /\ know_base (snd (get_kb_search textScore req w)) = know_base w.
Proof.
  search_cases w; split; reflexivity.
Qed.

Lemma get_kb_search_healthy (req : SearchQuery) (w : World) :
  healthy w ->
  let q := Js.default "" (search_q req) in
  let tagList := search_tag_list (search_tags req) in
  let v := spec_resolve textScore q tagList (know_base w) in
  get_kb_search textScore req w
  = (Returned (json (SearchBody q tagList (spec_results v))),
     mkWorld (know_base w) (query_logs w) (next_id w) (now w) (failing w)
             (calls w ++ spec_tiers_tried textScore q tagList (know_base w))).
Proof.
  intros H q tagList v. subst v q tagList.
  unfold spec_resolve, spec_tiers_tried, spec_results.
  search_cases w;
    try match goal with
        | F : failing w _ = Some _ |- _ => rewrite H in F; discriminate F
        end;
    try congruence;
    repeat match goal with
           | E : _ :: _ = _ :: _ |- _ => inversion E; clear E; subst
           end;
    unfold sent; cbn; rewrite <- ?app_assoc, ?app_nil_r;
    try reflexivity.
  all: destruct w; reflexivity.
Qed.

(** The routes other than [/chat] leave the log alone. *)
Lemma other_routes_keep_log (r : Request) (w : World) :
  match r with PostChat _ => False | _ => True end ->
  query_logs (snd (handle textScore r w)) = query_logs w.
Proof.
  destruct r as [| req | req | req |]; intros Hr; cbn [handle].
  - reflexivity.
  - unfold post_kb, try_catch, bind, KB_create, store_call.
    destruct (negb (Js.truthy_opt (kb_question req))
              || negb (Js.truthy_opt (kb_answer req)));
      [reflexivity |].
    destruct (failing w CreateKB); reflexivity.
  - apply get_kb_search_frame.
  - elim Hr.
  - unfold get_top_queries, try_catch, bind, Log_aggregate_top, store_read,
      store_call.
    destruct (failing w AggregateLog); reflexivity.
Qed.

(** X16: the invariant of log entries holds of the whole log in every
    state the server reaches from an empty log, through any requests and
    any change of what the database rejects. *)
Lemma reachable_log_invariant (w : World) :
  reachable textScore w -> Forall log_invariant (query_logs w).
Proof.
  induction 1 as [w Hw | w r Hr IH | w f Hr IH].
  - rewrite Hw. constructor.
  - destruct r as [| req | req | req |];
      try (rewrite other_routes_keep_log; [exact IH | exact I]).
    cbn [handle].
    destruct (post_chat_cases req w) as [[_ E] | [c [m [_ [_ [E _]]]]]];
      rewrite E; [| exact IH].
    cbn [snd after_chat query_logs]. apply Forall_app. split; [exact IH |].
    constructor; [apply log_entry_invariant | constructor].
  - exact IH.
Qed.

(** C10: GET /kb/search never writes to the log, nor does any route but
    POST /chat, whatever the database does; in a healthy world it returns
    the record of the same three-tier resolution as /chat (empty results
    for tier none), sends the same searches, and sends no log write. *)
Theorem kb_search_resolves_without_logging (req : SearchQuery) (w : World) :
  let q := Js.default "" (search_q req) in
  let tagList := search_tag_list (search_tags req) in
  let v := spec_resolve textScore q tagList (know_base w) in
  let r := get_kb_search textScore req w in
  query_logs (snd r) = query_logs w
  /\ (forall other : Request,
         match other with PostChat _ => False | _ => True end ->
         query_logs (snd (handle textScore other w)) = query_logs w)
  /\ (healthy w ->
        fst r = Returned (json (SearchBody q tagList (spec_results v)))
        /\ calls (snd r)
           = calls w ++ spec_tiers_tried textScore q tagList (know_base w)
        /\ fst (post_chat textScore (mkChatBody (Some q) (Some tagList)) w)
           = Returned (spec_response v)).
Proof.
  intros q tagList v r. split; [apply get_kb_search_frame |].
  split; [intros other; apply other_routes_keep_log |].
  intros H. unfold r. rewrite (get_kb_search_healthy req H).
  rewrite (post_chat_healthy (mkChatBody (Some q) (Some tagList)) H).
  repeat split.
Qed.

(** A search is answered: with at most one result, or with status 500 and
    the message of the rejected operation. *)
Lemma get_kb_search_cases (req : SearchQuery) (w : World) :
  (exists results,
      fst (get_kb_search textScore req w)
      = Returned (json (SearchBody (Js.default "" (search_q req))
                                   (search_tag_list (search_tags req))
                                   results))
      /\ List.length results <= 1)
  \/ exists c m,
      failing w c = Some m
      /\ fst (get_kb_search textScore req w)
         = Returned (status_json 500 (ErrorBody m)).
Proof.
  search_cases w;
    first [ right; do 2 eexists; split; [eassumption | reflexivity]
          | left; eexists; split; [reflexivity | cbn; lia] ].
Qed.

(** A search that is answered with status 200 returns the record of the
    resolution. *)
Lemma get_kb_search_resolution (req : SearchQuery) (w : World) :
  fst (get_kb_search textScore req w)
  = Returned (json (SearchBody
                      (Js.default "" (search_q req))
                      (search_tag_list (search_tags req))
                      (spec_results
                         (spec_resolve textScore
                                       (Js.default "" (search_q req))
                                       (search_tag_list (search_tags req))
                                       (know_base w)))))
  \/ exists c m,
      failing w c = Some m
      /\ fst (get_kb_search textScore req w)
         = Returned (status_json 500 (ErrorBody m)).
Proof.
  unfold spec_resolve, spec_results.
  search_cases w;
    try (right; do 2 eexists; split; [eassumption | reflexivity]);
    try congruence;
    repeat match goal with
           | E : _ :: _ = _ :: _ |- _ => inversion E; clear E; subst
           end;
    left; reflexivity.
Qed.

End ServerFacts.

(* ================================================================== *)
(** ** Adding to the knowledge base, and finding by tag *)

Lemma truthy_nonempty (s : string) : s <> "" -> Js.truthy s = true.
Proof. destruct s; [intros H; now elim H | reflexivity]. Qed.

Lemma post_kb_created (req : KbBody) (w : World) (question answer : string) :
  kb_question req = Some question -> question <> "" ->
  kb_answer req = Some answer -> answer <> "" ->
  failing w CreateKB = None ->
  post_kb req w
  = (Returned (status_json 201 (DocBody (created_doc question answer req w))),
     mkWorld (know_base w ++ [created_doc question answer req w])
             (query_logs w) (S (next_id w)) (now w) (failing w)
             (calls w ++ [CreateKB])).
Proof.
  intros Hq Hqn Ha Han Hf.
  unfold post_kb, try_catch, bind, KB_create.
  rewrite Hq, Ha. cbn [Js.truthy_opt Js.default].
  rewrite (truthy_nonempty Hqn), (truthy_nonempty Han). cbn [negb orb].
  rewrite store_call_ok by exact Hf. reflexivity.
Qed.

Lemma post_kb_rejected (req : KbBody) (w : World) (question answer m : string) :
  kb_question req = Some question -> question <> "" ->
  kb_answer req = Some answer -> answer <> "" ->
  failing w CreateKB = Some m ->
  fst (post_kb req w) = Returned (status_json 500 (ErrorBody m))
  /\ know_base (snd (post_kb req w)) = know_base w.
Proof.
  intros Hq Hqn Ha Han Hf. unfold post_kb, try_catch, bind, KB_create.
  rewrite Hq, Ha. cbn [Js.truthy_opt Js.default].
  rewrite (truthy_nonempty Hqn), (truthy_nonempty Han). cbn [negb orb].
  rewrite store_call_rejected with (m := m) by exact Hf.
  split; reflexivity.
Qed.

(** C6: POST /kb answers 400 and leaves the world as it is (no record is
    created) when the question or the answer is missing or empty;
    otherwise, the database accepting the write, it answers 201 with the
    created record, which is stored with every supplied tag in lower
    case. *)
Theorem post_kb_validates_then_creates (req : KbBody) (w : World) :
  (kb_question req = None \/ kb_question req = Some ""
   \/ kb_answer req = None \/ kb_answer req = Some "" ->
   post_kb req w
   = (Returned (status_json 400 (ErrorBody "question & answer required")), w))
  /\ (forall question answer,
         kb_question req = Some question -> question <> "" ->
         kb_answer req = Some answer -> answer <> "" ->
         failing w CreateKB = None ->
         let d := created_doc question answer req w in
         let r := post_kb req w in
         fst r = Returned (status_json 201 (DocBody d))
         /\ know_base (snd r) = know_base w ++ [d]
         /\ KB.question d = question /\ KB.answer d = answer
         /\ KB.tags d = map Js.toLowerCase (Js.default [] (kb_tags req))).
Proof.
  split.
  - intros H. unfold post_kb, try_catch.
    assert (E : negb (Js.truthy_opt (kb_question req))
                || negb (Js.truthy_opt (kb_answer req)) = true).
    { destruct H as [H | [H | [H | H]]]; rewrite H; cbn;
        rewrite ?orb_true_r; reflexivity. }
    rewrite E. reflexivity.
  - intros question answer Hq Hqn Ha Han Hf d r.
    unfold r. rewrite (post_kb_created req w Hq Hqn Ha Han Hf).
    repeat split.
Qed.

Lemma tag_hit_intro (wanted : list string) (d : KB.doc) (t : string) :
  In t (KB.tags d) -> In t wanted -> tag_hit wanted d = true.
Proof.
  intros Hd Hw. unfold tag_hit. apply existsb_exists. exists t.
  split; [exact Hd |]. apply existsb_exists. exists t.
  split; [exact Hw | apply String.eqb_refl].
Qed.

Lemma tag_hit_elim (wanted : list string) (d : KB.doc) :
  tag_hit wanted d = true -> exists t, In t (KB.tags d) /\ In t wanted.
Proof.
  unfold tag_hit. intros H. apply existsb_exists in H as [t [Hd H]].
  apply existsb_exists in H as [t' [Hw E]]. apply String.eqb_eq in E.
  subst t'. now exists t.
Qed.

(** The first hit of a list that ends in a hit. *)
Lemma limit1_filter_snoc {A} (p : A -> bool) (l : list A) (x : A) :
  p x = true ->
  exists d, limit1 (filter p (l ++ [x])) = [d]
            /\ p d = true
            /\ In d (l ++ [x])
            /\ (forallb (fun y => negb (p y)) l = true -> d = x).
Proof.
  intros Hx. induction l as [| y l IH]; cbn [app filter forallb].
  - rewrite Hx. exists x. cbn. auto.
  - destruct (p y) eqn:Ey.
    + exists y. cbn. repeat split; auto. intros H; discriminate H.
    + destruct IH as [d [E [Hp [Hin Hfirst]]]].
      exists d. cbn [negb andb]. repeat split; auto. now right.
Qed.

(** C7: a record added through POST /kb with the tag [given], in any case,
    is matched by [tagFilter] for every list of search tags that holds
    [given] in any case: the search returns one record that carries one of
    the wanted tags, and it is the added record when no earlier record
    carries one.  With no tags [tagFilter] returns the empty sequence
    without asking the database. *)
Theorem tags_match_in_any_case (req : KbBody) (w : World)
        (question answer given : string) (search : list string) :
  healthy w ->
  kb_question req = Some question -> question <> "" ->
  kb_answer req = Some answer -> answer <> "" ->
  In given (Js.default [] (kb_tags req)) ->
  (exists t, In t search /\ Js.toLowerCase t = Js.toLowerCase given) ->
  let added := created_doc question answer req w in
  let w' := snd (post_kb req w) in
  let wanted := map Js.toLowerCase search in
  In (Js.toLowerCase given) (KB.tags added)
  /\ tag_hit wanted added = true
  /\ (exists d,
         fst (tagFilter search w') = Returned [d]
         /\ In d (know_base w')
         /\ (exists t, In t (KB.tags d) /\ In t wanted)
         /\ (forallb (fun y => negb (tag_hit wanted y)) (know_base w) = true
             -> d = added))
  /\ tagFilter [] w' = (Returned [], w').
Proof.
  intros H Hq Hqn Ha Han Hgiven [t [Ht Hlow]] added w' wanted.
  assert (Hin : In (Js.toLowerCase given) (KB.tags added))
    by (cbn; apply in_map, Hgiven).
  assert (Hhit : tag_hit wanted added = true).
  { apply tag_hit_intro with (t := Js.toLowerCase given); [exact Hin |].
    rewrite <- Hlow. apply in_map, Ht. }
  split; [exact Hin |]. split; [exact Hhit |]. split; [| reflexivity].
  unfold w'. rewrite (post_kb_created req w Hq Hqn Ha Han (H CreateKB)).
  cbn [snd]. fold added.
  assert (Hn : Js.nonempty search = true) by (destruct search; [elim Ht | reflexivity]).
  rewrite tagFilter_ok by (try exact Hn; apply H).
  cbn [fst know_base]. unfold tag_lookup. fold wanted.
  destruct (limit1_filter_snoc (tag_hit wanted) (know_base w) added Hhit)
    as [d [E [Hp [Hd Hfirst]]]].
  exists d. rewrite E. repeat split; auto. apply tag_hit_elim, Hp.
Qed.

(* ================================================================== *)
(** ** The escaped pattern in [regexFallback] *)

(** C5: the pattern [regexFallback] builds from a query lexes to the
    characters of the query, each a literal (no character of the query is
    read as regular-expression syntax), so [new RegExp] never throws on it
    and the expression matches a text exactly when the query occurs in it
    up to the case of letters; consequently [regexFallback] returns the
    first record whose question or answer contains the query in that
    sense, and nothing when there is no such record. *)
Theorem regex_fallback_is_literal (query : string) :
  RegExp.lex (String.length (RegExp.escape query))
             (Js.chars (RegExp.escape query))
  = Some (map RegExp.TChar (Js.chars query))
  /\ exists rx,
      RegExp.compile (RegExp.escape query) = Some rx
      /\ (forall subject,
             RegExp.test rx subject = true <-> Js.ci_substring query subject)
      /\ forall w,
          failing w (FindRegex (RegExp.escape query)) = None ->
          exists found,
            fst (regexFallback query w) = Returned found
            /\ found = limit1 (filter (regex_hit rx) (know_base w))
            /\ (forall d, In d found ->
                          Js.ci_substring query (KB.question d)
                          \/ Js.ci_substring query (KB.answer d))
            /\ (found = [] ->
                forall d, In d (know_base w) ->
                          ~ Js.ci_substring query (KB.question d)
                          /\ ~ Js.ci_substring query (KB.answer d)).
Proof.
  split; [apply RegExpFacts.lex_escape, RegExpFacts.escape_length |].
  exists (RegExp.literal query).
  split; [apply RegExpFacts.compile_escape |].
  split; [intros subject; apply RegExpFacts.test_literal |].
  intros w Hw.
  exists (limit1 (filter (regex_hit (RegExp.literal query)) (know_base w))).
  split.
  { rewrite regexFallback_ok by exact Hw. unfold regex_lookup.
    now rewrite RegExpFacts.compile_escape. }
  split; [reflexivity |].
  assert (Hhit : forall d, regex_hit (RegExp.literal query) d = true
                           <-> Js.ci_substring query (KB.question d)
                               \/ Js.ci_substring query (KB.answer d)).
  { intros d. unfold regex_hit.
    rewrite orb_true_iff, !RegExpFacts.test_literal. reflexivity. }
  split.
  - intros d Hd. apply Hhit.
    assert (Hf : In d (filter (regex_hit (RegExp.literal query)) (know_base w))).
    { revert Hd. unfold limit1. apply in_firstn. }
    now apply filter_In in Hf.
  - intros Hnil d Hd.
    assert (Hno : regex_hit (RegExp.literal query) d = false).
    { destruct (regex_hit (RegExp.literal query) d) eqn:E; [| reflexivity].
      assert (Hf : In d (filter (regex_hit (RegExp.literal query)) (know_base w)))
        by (apply filter_In; auto).
      destruct (filter (regex_hit (RegExp.literal query)) (know_base w));
        [elim Hf | discriminate Hnil]. }
    split; intros Hc;
      (assert (Ht : regex_hit (RegExp.literal query) d = true)
        by (apply Hhit; auto));
      congruence.
Qed.

(* ================================================================== *)
(** ** The analytics route *)

Lemma tally_bump (q q' : string) (groups : list (string * nat)) :
  tally q (bump q' groups)
  = (if String.eqb q' q then 1 else 0) + tally q groups.
Proof.
  induction groups as [| [k n] groups IH]; cbn [bump tally fold_right fst snd].
  - destruct (String.eqb q' q); reflexivity.
  - fold (tally q groups). fold (tally q (bump q' groups)).
    destruct (String.eqb k q') eqn:E; cbn [tally fold_right fst snd].
    + apply String.eqb_eq in E. subst k. fold (tally q groups).
      destruct (String.eqb q' q); lia.
    + fold (tally q (bump q' groups)). rewrite IH.
      destruct (String.eqb k q), (String.eqb q' q); lia.
Qed.

Lemma keys_bump (q : string) (groups : list (string * nat)) (k : string) :
  In k (map fst (bump q groups)) <-> k = q \/ In k (map fst groups).
Proof.
  induction groups as [| [k' n] groups IH]; cbn [bump map fst In].
  - intuition.
  - destruct (String.eqb k' q) eqn:E; cbn [map fst In].
    + apply String.eqb_eq in E. subst k'. intuition.
    + rewrite IH. intuition.
Qed.

Lemma NoDup_bump (q : string) (groups : list (string * nat)) :
  NoDup (map fst groups) -> NoDup (map fst (bump q groups)).
Proof.
  induction groups as [| [k n] groups IH]; cbn [bump map fst]; intros H.
  - constructor; [intros [] | constructor].
  - apply NoDup_cons_iff in H as [Hk H].
    destruct (String.eqb k q) eqn:E; cbn [map fst].
    + now constructor.
    + constructor; [| now apply IH].
      rewrite keys_bump. intros [-> | Hin]; [| now apply Hk].
      now rewrite String.eqb_refl in E.
Qed.

Lemma positive_bump (q : string) (groups : list (string * nat)) :
  Forall (fun g => 0 < snd g) groups ->
  Forall (fun g => 0 < snd g) (bump q groups).
Proof.
  induction 1 as [| [k n] groups Hn H IH]; cbn [bump].
  - constructor; [cbn; lia | constructor].
  - destruct (String.eqb k q); constructor; cbn in *; auto; lia.
Qed.

(** A group with a key that occurs once holds the tally of its key. *)
Lemma tally_in (q : string) (n : nat) (groups : list (string * nat)) :
  NoDup (map fst groups) -> In (q, n) groups -> tally q groups = n.
Proof.
  induction groups as [| [k m] groups IH]; cbn [map fst]; intros Hd Hin.
  - elim Hin.
  - apply NoDup_cons_iff in Hd as [Hk Hd].
    cbn [tally fold_right fst snd]. fold (tally q groups).
    destruct Hin as [E | Hin].
    + injection E as -> ->. rewrite String.eqb_refl.
      assert (tally q groups = 0) as ->; [| lia].
      clear IH Hd. induction groups as [| [k' m'] groups IH];
        [reflexivity |].
      cbn [tally fold_right fst snd]. fold (tally q groups).
      destruct (String.eqb k' q) eqn:E.
      * apply String.eqb_eq in E. subst k'. elim Hk. now left.
      * apply IH. intros H. apply Hk. now right.
    + destruct (String.eqb k q) eqn:E.
      * apply String.eqb_eq in E. subst k. elim Hk.
        change q with (fst (q, n)). now apply in_map.
      * now apply IH.
Qed.

Lemma tally_positive_key (q : string) (groups : list (string * nat)) :
  0 < tally q groups -> In q (map fst groups).
Proof.
  induction groups as [| [k m] groups IH];
    cbn [tally fold_right fst snd map In]; [lia |].
  fold (tally q groups).
  destruct (String.eqb k q) eqn:E.
  - apply String.eqb_eq in E. now left.
  - intros H. right. now apply IH.
Qed.

(** The groups built from a log, on top of groups already there. *)
Lemma group_fold (logs : list Log.doc) :
  forall groups,
    NoDup (map fst groups) ->
    Forall (fun g => 0 < snd g) groups ->
    let result :=
      fold_left (fun gs d => bump (Log.query d) gs) logs groups in
    NoDup (map fst result)
    /\ Forall (fun g => 0 < snd g) result
    /\ forall q, tally q result = query_count q logs + tally q groups.
Proof.
  induction logs as [| d logs IH]; intros groups Hd Hp; cbn [fold_left].
  - repeat split; auto.
  - destruct (IH (bump (Log.query d) groups)) as [H1 [H2 H3]];
      [now apply NoDup_bump | now apply positive_bump |].
    repeat split; auto. intros q. rewrite H3, tally_bump.
    unfold query_count. cbn [filter].
    destruct (String.eqb (Log.query d) q); cbn [List.length]; lia.
Qed.

Lemma group_by_query_spec (logs : list Log.doc) :
  NoDup (map fst (group_by_query logs))
  /\ (forall q n, In (q, n) (group_by_query logs) ->
                  n = query_count q logs /\ 0 < n)
  /\ (forall q, 0 < query_count q logs ->
                In (q, query_count q logs) (group_by_query logs)).
Proof.
  destruct (group_fold logs (groups := [])) as [Hd [Hp Ht]];
    [constructor | constructor |].
  fold (group_by_query logs) in Hd, Hp, Ht.
  assert (Hin : forall q n, In (q, n) (group_by_query logs) ->
                            n = query_count q logs /\ 0 < n).
  { intros q n Hin. split.
    - rewrite <- (@tally_in q n _ Hd Hin), Ht. cbn. lia.
    - rewrite Forall_forall in Hp. apply (Hp (q, n) Hin). }
  split; [exact Hd |]. split; [exact Hin |].
  intros q Hq.
  assert (Hk : In q (map fst (group_by_query logs))).
  { apply tally_positive_key. rewrite Ht. cbn. lia. }
  apply in_map_iff in Hk as [[k n] [E Hk]]. cbn in E. subst k.
  now destruct (Hin q n Hk) as [<- _].
Qed.

Lemma count_above_asym (x y : string * nat) :
  count_above y x = true -> count_above x y = false.
Proof.
  unfold count_above. rewrite Nat.ltb_lt, Nat.ltb_ge. lia.
Qed.

Lemma count_below_trans (x y z : string * nat) :
  count_above z y = false -> count_above y x = false ->
  count_above z x = false.
Proof.
  unfold count_above. rewrite !Nat.ltb_ge. lia.
Qed.

(** C9: GET /analytics/top-queries answers with one element per query,
    each holding the number of log entries with exactly that query, in
    descending order of count and at most ten of them; a query of the log
    that is left out is left out because ten others have counts at least
    as high. *)
Theorem top_queries_grouped_sorted_capped (w : World) :
  failing w AggregateLog = None ->
  exists agg,
    fst (get_top_queries w) = Returned (json (TopQueriesBody agg))
    /\ query_logs (snd (get_top_queries w)) = query_logs w
    /\ (forall q n, In (q, n) agg ->
                    n = query_count q (query_logs w) /\ 0 < n)
    /\ NoDup (map fst agg)
    /\ StronglySorted (fun a b => snd b <= snd a) agg
    /\ List.length agg <= 10
    /\ (forall q, 0 < query_count q (query_logs w) ->
                  ~ In q (map fst agg) ->
                  List.length agg = 10
                  /\ forall a, In a agg ->
                               query_count q (query_logs w) <= snd a).
Proof.
  intros Hf.
  set (groups := group_by_query (query_logs w)).
  set (sorted := sort_desc count_above groups).
  exists (firstn 10 sorted).
  destruct (group_by_query_spec (query_logs w)) as [Hd [Hin Hall]].
  fold groups in Hd, Hin, Hall.
  assert (Hperm : Permutation sorted groups) by apply sort_desc_perm.
  assert (Hsorted : StronglySorted (descending count_above) sorted)
    by (apply sort_desc_sorted; [apply count_above_asym | apply count_below_trans]).
  split.
  { unfold get_top_queries, try_catch, bind, Log_aggregate_top.
    rewrite store_read_ok by exact Hf. reflexivity. }
  split.
  { unfold get_top_queries, try_catch, bind, Log_aggregate_top.
    rewrite store_read_ok by exact Hf. reflexivity. }
  split.
  { intros q n H. apply Hin. apply (Permutation_in _ Hperm).
    now apply in_firstn in H. }
  split.
  { rewrite <- firstn_map. apply NoDup_firstn.
    apply (Permutation_NoDup (l := map fst groups)); [| exact Hd].
    apply Permutation_map. now symmetry. }
  split.
  { apply StronglySorted_firstn.
    apply (StronglySorted_weaken (R := descending count_above));
      [| exact Hsorted].
    intros x y. unfold descending, count_above. now rewrite Nat.ltb_ge. }
  split; [apply firstn_le_length |].
  intros q Hq Hout.
  assert (Hs : In (q, query_count q (query_logs w)) sorted).
  { apply (Permutation_in _ (Permutation_sym Hperm)). now apply Hall. }
  rewrite <- (firstn_skipn 10 sorted) in Hs, Hsorted.
  apply in_app_or in Hs as [Hs | Hs].
  { elim Hout. change q with (fst (q, query_count q (query_logs w))).
    now apply in_map. }
  split.
  - rewrite length_firstn. apply Nat.min_l.
    destruct (Nat.le_gt_cases 10 (List.length sorted)) as [Hl | Hl];
      [exact Hl |].
    rewrite skipn_all2 in Hs by lia. elim Hs.
  - intros a Ha.
    apply StronglySorted_app_order in Hsorted as [_ Hord].
    specialize (Hord a _ Ha Hs). unfold descending, count_above in Hord.
    now apply Nat.ltb_ge in Hord.
Qed.

(* ================================================================== *)
(** ** The theorems at work on the campus *)

Lemma healthy_campus : healthy campus.
Proof. intros c. reflexivity. Qed.

Lemma healthy_empty_world : healthy empty_world.
Proof. intros c. reflexivity. Qed.




(** The end-to-end example of the specification. *)
Lemma chat_tiers_witness :
  healthy campus
  /\ fst (post_chat wordScore (ask "orientation day") campus)
     = Returned (json (ChatHitBody "Sept 1" "user" ["orientation"]
                                   by_text (Some (inject_Z 8))))
  /\ calls (snd (post_chat wordScore (ask "orientation day") campus))
     = [FindText "orientation day"; CreateLog].
Proof.
  split; [exact healthy_campus |].
  destruct (chat_tiers_in_priority_order wordScore (ask "orientation day")
                                         healthy_campus) as [E1 [E2 _]].
  split; [exact E1 | exact E2].
Defined.



(** The same question, asked again after it was logged once. *)
Lemma chat_deterministic_witness :
  healthy campus
  /\ healthy (snd (post_chat wordScore (ask "c+") campus))
  /\ know_base campus = know_base (snd (post_chat wordScore (ask "c+") campus))
  /\ fst (post_chat wordScore (ask "c+") campus)
     = fst (post_chat wordScore (ask "c+")
                      (snd (post_chat wordScore (ask "c+") campus))).
Proof.
  destruct (chat_repeatable wordScore (ask "c+") healthy_campus) as [H E].
  split; [exact healthy_campus |]. split; [exact H |].
  split; [symmetry; exact E |].
  exact (chat_is_deterministic wordScore (ask "c+") healthy_campus H
                               (eq_sym E)).
Defined.

(** A search with a query and a tag list on the campus. *)
Lemma kb_search_witness :
  healthy campus
  /\ fst (get_kb_search wordScore
                        (mkSearchQuery (Some "zzz") (Some " Parking ,x"))
                        campus)
     = Returned (json (SearchBody "zzz" ["parking"; "x"] [(parking, None)]))
  /\ query_logs (snd (get_kb_search wordScore
                                    (mkSearchQuery (Some "zzz")
                                                   (Some " Parking ,x"))
                                    campus))
     = [].
Proof.
  split; [exact healthy_campus |].
  destruct (kb_search_resolves_without_logging
              wordScore (mkSearchQuery (Some "zzz") (Some " Parking ,x"))
              campus) as [E1 [_ E2]].
  destruct (E2 healthy_campus) as [E3 _].
  split; [exact E3 | exact E1].
Defined.

(** The example of the specification: a query that holds [C++]. *)
Lemma regex_literal_witness :
  failing campus (FindRegex (RegExp.escape "C++")) = None
  /\ RegExp.escape "C++" = "C\+\+"
  /\ RegExp.compile "C++" = None
  /\ exists found,
      fst (regexFallback "C++" campus) = Returned found
      /\ found = [parking].
Proof.
  split; [reflexivity |]. split; [reflexivity |]. split; [reflexivity |].
  destruct (regex_fallback_is_literal "C++") as [_ [rx [Hc [_ Hw]]]].
  destruct (Hw campus eq_refl) as [found [E1 [E2 _]]].
  exists found. split; [exact E1 |].
  rewrite E2. injection Hc as <-. vm_compute. reflexivity.
Defined.

(** The example of the specification: [Parking] added, [parking] sought. *)
Lemma tags_match_witness :
  healthy empty_world
  /\ In "Parking" (Js.default [] (kb_tags add_parking))
  /\ (exists t, In t ["parking"]
                /\ Js.toLowerCase t = Js.toLowerCase "Parking")
  /\ exists d,
      fst (tagFilter ["parking"] (snd (post_kb add_parking empty_world)))
      = Returned [d]
      /\ KB.question d = "Where can I park?"
      /\ KB.tags d = ["parking"].
Proof.
  assert (Hin : In "Parking" (Js.default [] (kb_tags add_parking)))
    by (left; reflexivity).
  assert (Hex : exists t, In t ["parking"]
                          /\ Js.toLowerCase t = Js.toLowerCase "Parking")
    by (exists "parking"; split; [left; reflexivity | reflexivity]).
  split; [exact healthy_empty_world |]. split; [exact Hin |].
  split; [exact Hex |].
  destruct (@tags_match_in_any_case
              add_parking empty_world "Where can I park?"
              "Lot C++ behind the gym" "Parking" ["parking"]
              healthy_empty_world eq_refl ltac:(discriminate)
              eq_refl ltac:(discriminate) Hin Hex)
    as [_ [_ [[d [E [_ [_ Hfirst]]]] _]]].
  exists d. split; [exact E |].
  rewrite (Hfirst eq_refl). split; reflexivity.
Defined.

Lemma post_kb_witness :
  kb_question add_parking = Some "Where can I park?"
  /\ kb_answer add_parking = Some "Lot C++ behind the gym"
  /\ failing empty_world CreateKB = None
  /\ fst (post_kb add_parking empty_world)
     = Returned (status_json 201
                   (DocBody (KB.mk 0 "Where can I park?"
                                   "Lot C++ behind the gym" ["parking"]
                                   "user" 0%Z)))
  /\ post_kb (mkKbBody (Some "Where can I park?") (Some "") None None)
             empty_world
     = (Returned (status_json 400 (ErrorBody "question & answer required")),
        empty_world).
Proof.
  split; [reflexivity |]. split; [reflexivity |]. split; [reflexivity |].
  split.
  - exact (proj1 (proj2 (post_kb_validates_then_creates add_parking
                                                        empty_world)
                        "Where can I park?" "Lot C++ behind the gym"
                        eq_refl ltac:(discriminate)
                        eq_refl ltac:(discriminate) eq_refl)).
  - apply (proj1 (post_kb_validates_then_creates
                    (mkKbBody (Some "Where can I park?") (Some "") None None)
                    empty_world)).
    right. right. right. reflexivity.
Defined.

Lemma top_queries_witness :
  failing busy_campus AggregateLog = None
  /\ exists agg,
      fst (get_top_queries busy_campus) = Returned (json (TopQueriesBody agg))
      /\ agg = [("parking", 3); ("c++", 1); ("exams", 1)].
Proof.
  split; [reflexivity |].
  destruct (top_queries_grouped_sorted_capped busy_campus eq_refl)
    as [agg [E _]].
  exists agg. split; [exact E |].
  vm_compute in E. now injection E.
Defined.

(** The first testable property of the specification: a tag-only query
    finds the record that carries the tag. *)
Example chat_by_tag_only :
  fst (post_chat wordScore (ask_tags ["parking"]) campus)
  = Returned (json (ChatHitBody "Lot C++ behind the gym" "user" ["parking"]
                                by_tag None)).
Proof. reflexivity. Qed.

(** Without the escaping the query [a.c] would match [abc]; escaped, it
    matches only where a dot is. *)
Example escaping_matters :
  option_map (fun rx => RegExp.test rx "abc") (RegExp.compile "a.c")
  = Some true
  /\ option_map (fun rx => RegExp.test rx "abc")
                (RegExp.compile (RegExp.escape "a.c"))
     = Some false
  /\ option_map (fun rx => RegExp.test rx "xA.Cx")
                (RegExp.compile (RegExp.escape "a.c"))
     = Some true.
Proof. repeat split. Qed.

(* ================================================================== *)
(** ** Normal forms of strings *)

Module JsFacts.
Import Js.

Lemma lower_char_idem (c : ascii) : lower_char (lower_char c) = lower_char c.
Proof.
  unfold lower_char. destruct (is_upper c) eqn:E; [| now rewrite E].
  unfold is_upper in *. apply andb_true_iff in E as [E1 E2].
  apply Nat.leb_le in E1, E2.
  rewrite nat_ascii_embedding by lia.
  replace (nat_of_ascii c + 32 <=? 90)%nat with false
    by (symmetry; apply Nat.leb_gt; lia).
  now rewrite andb_false_r.
Qed.

Lemma toLowerCase_idem (s : string) :
  toLowerCase (toLowerCase s) = toLowerCase s.
Proof.
  induction s as [| c s IH]; cbn [toLowerCase]; [reflexivity |].
  now rewrite lower_char_idem, IH.
Qed.

(** Lower-casing maps letters to letters: white space stays white space
    and nothing becomes white space. *)
Lemma is_space_lower_char (c : ascii) : is_space (lower_char c) = is_space c.
Proof.
  unfold lower_char. destruct (is_upper c) eqn:E; [| reflexivity].
  unfold is_upper in E. apply andb_true_iff in E as [E1 E2].
  apply Nat.leb_le in E1, E2. unfold is_space.
  rewrite nat_ascii_embedding by lia.
  repeat match goal with
         | |- context [(?a <=? ?b)%nat] =>
             destruct (Nat.leb_spec a b); try lia
         | |- context [(?a =? ?b)%nat] =>
             destruct (Nat.eqb_spec a b); try lia
         end; reflexivity.
Qed.

Lemma trimStart_lower (s : string) :
  trimStart (toLowerCase s) = toLowerCase (trimStart s).
Proof.
  induction s as [| c s IH]; cbn [toLowerCase trimStart]; [reflexivity |].
  rewrite is_space_lower_char. destruct (is_space c); [exact IH | reflexivity].
Qed.

Lemma trimEnd_lower (s : string) :
  trimEnd (toLowerCase s) = toLowerCase (trimEnd s).
Proof.
  induction s as [| c s IH]; cbn [toLowerCase trimEnd]; [reflexivity |].
  rewrite IH, is_space_lower_char.
  destruct (trimEnd s); cbn [toLowerCase];
    [destruct (is_space c) |]; reflexivity.
Qed.

Lemma trim_lower (s : string) : trim (toLowerCase s) = toLowerCase (trim s).
Proof. unfold trim. now rewrite trimStart_lower, trimEnd_lower. Qed.

Lemma trimStart_idem (s : string) : trimStart (trimStart s) = trimStart s.
Proof.
  induction s as [| c s IH]; cbn [trimStart]; [reflexivity |].
  destruct (is_space c) eqn:E; [exact IH |]. cbn [trimStart]. now rewrite E.
Qed.

Lemma trimEnd_idem (s : string) : trimEnd (trimEnd s) = trimEnd s.
Proof.
  induction s as [| c s IH]; cbn [trimEnd]; [reflexivity |].
  destruct (trimEnd s) as [| c' s'] eqn:E.
  - destruct (is_space c) eqn:Ec; cbn [trimEnd]; [reflexivity |].
    now rewrite Ec.
  - cbn [trimEnd] in *. now rewrite IH.
Qed.

(** Trimming the end leaves the start as it is. *)
Lemma trimStart_trimEnd (s : string) :
  trimStart s = s -> trimStart (trimEnd s) = trimEnd s.
Proof.
  destruct s as [| c s]; [reflexivity |]. cbn [trimStart trimEnd].
  destruct (is_space c) eqn:E.
  - intros H. exfalso.
    assert (L : String.length (trimStart s) <= String.length s).
    { clear. induction s as [| a s IH]; cbn [trimStart]; [lia |].
      destruct (is_space a); cbn [String.length]; lia. }
    rewrite H in L. cbn [String.length] in L. lia.
  - intros _. destruct (trimEnd s); cbn [trimStart]; now rewrite E.
Qed.

Lemma trim_idem (s : string) : trim (trim s) = trim s.
Proof.
  unfold trim.
  rewrite trimStart_trimEnd by apply trimStart_idem.
  apply trimEnd_idem.
Qed.

End JsFacts.

(* ================================================================== *)
(** ** What the routes do to the collections *)

Lemma post_kb_cases (req : KbBody) (w : World) :
  post_kb req w
  = (Returned (status_json 400 (ErrorBody "question & answer required")), w)
  \/ (exists question answer,
         question <> "" /\ answer <> ""
         /\ failing w CreateKB = None
         /\ post_kb req w
            = (Returned (status_json 201
                           (DocBody (created_doc question answer req w))),
               mkWorld (know_base w ++ [created_doc question answer req w])
                       (query_logs w) (S (next_id w)) (now w) (failing w)
                       (calls w ++ [CreateKB])))
  \/ (exists m,
         failing w CreateKB = Some m
         /\ post_kb req w
            = (Returned (status_json 500 (ErrorBody m)), sent CreateKB w)).
Proof.
  destruct (kb_question req) as [[| c q] |] eqn:Hq;
    try (left; unfold post_kb, try_catch; rewrite Hq; reflexivity).
  destruct (kb_answer req) as [[| c' a] |] eqn:Ha;
    try (left; unfold post_kb, try_catch; rewrite Hq, Ha; reflexivity).
  right. destruct (failing w CreateKB) as [m |] eqn:Hf.
  - right. exists m. split; [reflexivity |].
    unfold post_kb, try_catch, bind, KB_create. rewrite Hq, Ha.
    cbn [Js.truthy_opt Js.truthy negb orb].
    now rewrite store_call_rejected with (m := m) by exact Hf.
  - left. exists (String c q), (String c' a).
    split; [discriminate |]. split; [discriminate |]. split; [reflexivity |].
    apply post_kb_created; auto; discriminate.
Qed.

Lemma get_top_queries_cases (w : World) :
  snd (get_top_queries w) = sent AggregateLog w
  /\ ((failing w AggregateLog = None
       /\ fst (get_top_queries w)
          = Returned (json (TopQueriesBody
                              (firstn 10 (sort_desc count_above
                                            (group_by_query (query_logs w)))))))
      \/ exists m, failing w AggregateLog = Some m
                   /\ fst (get_top_queries w)
                      = Returned (status_json 500 (ErrorBody m))).
Proof.
  unfold get_top_queries, try_catch, bind, Log_aggregate_top, store_read,
    store_call.
  destruct (failing w AggregateLog) as [m |] eqn:E; cbn.
  - split; [reflexivity |]. right. now exists m.
  - split; [reflexivity |]. now left.
Qed.

(* ================================================================== *)
(** ** What [find] with [limit(1)] returns *)

Section FirstAndBest.

Context {A : Type}.

(** The first hit of a filter, and what comes before it. *)
Lemma limit1_filter_first (p : A -> bool) (l : list A) :
  (limit1 (filter p l) = [] /\ forall x, In x l -> p x = false)
  \/ exists d before after,
      limit1 (filter p l) = [d]
      /\ l = before ++ d :: after
      /\ p d = true
      /\ forall x, In x before -> p x = false.
Proof.
  induction l as [| y l IH]; cbn [filter].
  - left. split; [reflexivity | intros x []].
  - destruct (p y) eqn:Ey.
    + right. exists y, [], l. repeat split; auto. intros x [].
    + destruct IH as [[E Hno] | [d [before [after [E [-> [Hd Hno]]]]]]].
      * left. split; [exact E |]. intros x [<- | Hx]; auto.
      * right. exists d, (y :: before), after. repeat split; auto.
        intros x [<- | Hx]; auto.
Qed.

Variable above : A -> A -> bool.
Hypothesis above_asym : forall x y, above y x = true -> above x y = false.
Hypothesis below_trans :
  forall x y z, above z y = false -> above y x = false -> above z x = false.

(** The head of a descending sort is an element no other ranks above. *)
Lemma limit1_sort_desc_best (l : list A) :
  match limit1 (sort_desc above l) with
  | [] => l = []
  | x :: rest =>
      rest = [] /\ In x l /\ forall y, In y l -> above y x = false
  end.
Proof.
  pose proof (sort_desc_perm above l) as Hp.
  pose proof (sort_desc_sorted above above_asym below_trans l) as Hs.
  destruct (sort_desc above l) as [| x sorted]; cbn [limit1 firstn].
  - apply Permutation_nil. now symmetry.
  - split; [reflexivity |]. split.
    + apply (Permutation_in _ Hp). now left.
    + intros y Hy. apply (Permutation_in _ (Permutation_sym Hp)) in Hy.
      apply StronglySorted_inv in Hs as [_ Hx].
      destruct Hy as [<- | Hy].
      * destruct (above x x) eqn:E; [| reflexivity].
        pose proof (above_asym E) as E'. congruence.
      * rewrite Forall_forall in Hx. now apply Hx.
Qed.

End FirstAndBest.

Lemma score_above_asym (x y : KB.doc * Q) :
  score_above y x = true -> score_above x y = false.
Proof.
  unfold score_above. rewrite negb_true_iff, negb_false_iff.
  intros H. apply Qle_bool_iff.
  destruct (Qlt_le_dec (snd x) (snd y)) as [Hlt | Hle].
  - now apply Qlt_le_weak.
  - apply Qle_bool_iff in Hle. congruence.
Qed.

Lemma score_below_trans (x y z : KB.doc * Q) :
  score_above z y = false -> score_above y x = false ->
  score_above z x = false.
Proof.
  unfold score_above. rewrite !negb_false_iff, !Qle_bool_iff.
  apply Qle_trans.
Qed.

Section RouteFacts.

Variable textScore : string -> KB.doc -> option Q.

(** A resolution selects a record of the knowledge base it searched. *)
Lemma spec_resolve_top_in (query : string) (tags : list string)
      (docs : list KB.doc) (d : KB.doc) :
  top (spec_resolve textScore query tags docs) = Some d -> In d docs.
Proof.
  assert (Htext : forall h l, text_lookup textScore query docs = h :: l ->
                              In (fst h) docs).
  { intros h l E.
    assert (Hin : In h (text_lookup textScore query docs))
      by (rewrite E; now left).
    unfold text_lookup, limit1 in Hin. apply in_firstn in Hin.
    apply (Permutation_in _ (sort_desc_perm _ _)) in Hin.
    unfold text_hits in Hin. apply in_flat_map in Hin as [x [Hx Hh]].
    destruct (textScore query x); [| elim Hh].
    destruct Hh as [<- | []]. exact Hx. }
  assert (Hlimit : forall p (x : KB.doc) l,
             limit1 (filter p docs) = x :: l -> In x docs).
  { intros p x l E.
    assert (Hin : In x (limit1 (filter p docs))) by (rewrite E; now left).
    unfold limit1 in Hin. apply in_firstn in Hin.
    now apply filter_In in Hin. }
  unfold spec_resolve.
  destruct (Js.truthy query).
  - destruct (text_lookup textScore query docs) as [| [x s] l] eqn:Et.
    + destruct (regex_lookup query docs) as [| x l] eqn:Er.
      * destruct (Js.nonempty tags);
          [destruct (tag_lookup tags docs) as [| x l] eqn:Eg |];
          cbn; intros H; try discriminate H.
        injection H as <-. apply (Hlimit _ _ _ Eg).
      * cbn. intros H. injection H as <-.
        unfold regex_lookup in Er.
        destruct (RegExp.compile (RegExp.escape query));
          [apply (Hlimit _ _ _ Er) | discriminate Er].
    + cbn. intros H. injection H as <-. apply (Htext (x, s) l eq_refl).
  - destruct (Js.nonempty tags);
      [destruct (tag_lookup tags docs) as [| x l] eqn:Eg |];
      cbn; intros H; try discriminate H.
    injection H as <-. apply (Hlimit _ _ _ Eg).
Qed.

(** The effect of a request on the two collections: none, one record
    added by [POST /kb], or one entry logged by [POST /chat]. *)
Lemma route_effects (r : Request) (w : World) :
  let w' := snd (handle textScore r w) in
  (know_base w' = know_base w /\ query_logs w' = query_logs w)
  \/ (exists req question answer,
         r = PostKb req /\ question <> "" /\ answer <> ""
         /\ know_base w' = know_base w ++ [created_doc question answer req w]
         /\ query_logs w' = query_logs w)
  \/ (exists req,
         r = PostChat req
         /\ know_base w' = know_base w
         /\ query_logs w'
            = query_logs w
              ++ [log_entry (Js.default "" (chat_query req))
                            (spec_resolve textScore
                                          (Js.default "" (chat_query req))
                                          (Js.default [] (chat_tags req))
                                          (know_base w))
                            w]).
Proof.
  destruct r as [| req | req | req |]; cbn [handle].
  - left. split; reflexivity.
  - destruct (post_kb_cases req w) as [E | [[q [a [Hq [Ha [_ E]]]]] | [m [_ E]]]];
      rewrite E; cbn [snd].
    + left. split; reflexivity.
    + right. left. exists req, q, a. repeat split; auto.
    + left. split; reflexivity.
  - left. apply and_comm, get_kb_search_frame.
  - destruct (post_chat_cases textScore req w)
      as [[_ E] | [c [m [_ [_ [E1 E2]]]]]].
    + right. right. exists req. rewrite E. repeat split.
    + left. split; assumption.
  - left. rewrite (proj1 (get_top_queries_cases w)). split; reflexivity.
Qed.

(** X1: for requests whose fields have their declared types (a string, an
    array of strings for the [tags] of a body, or left out), every route
    answers, whether the database performs or rejects what it is sent: no
    rejection escapes a handler.  The status is 200, 201, 400 or 500; 201
    and 400 come from [POST /kb] only; and for such a request 500 is
    answered only when the database rejects an operation, with the message
    of that rejection as the [error] of the body.  (A body of another
    shape, on which [tags.map] or [toLowerCase] throws, is outside
    [Request].) *)
Theorem every_route_responds (r : Request) (w : World) :
  exists rsp,
    fst (handle textScore r w) = Returned rsp
    /\ (status rsp = 200 \/ status rsp = 201
        \/ status rsp = 400 \/ status rsp = 500)
    /\ (status rsp = 201 \/ status rsp = 400 -> exists req, r = PostKb req)
    /\ (status rsp = 500 ->
        exists c m, failing w c = Some m /\ body rsp = ErrorBody m).
Proof.
  destruct r as [| req | req | req |]; cbn [handle].
  - eexists. split; [reflexivity |]. cbn.
    repeat split; auto; intros; try discriminate; intuition discriminate.
  - destruct (post_kb_cases req w) as [E | [[q [a [_ [_ [_ E]]]]] | [m [Hm E]]]];
      rewrite E; eexists; (split; [reflexivity |]); cbn;
      repeat split; eauto 6; intros; try discriminate.
  - destruct (get_kb_search_cases textScore req w)
      as [[results [E _]] | [c [m [Hc E]]]];
      rewrite E; eexists; (split; [reflexivity |]); cbn;
      repeat split; eauto 6; intros; try discriminate; intuition discriminate.
  - destruct (post_chat_cases textScore req w)
      as [[_ E] | [c [m [Hc [E _]]]]]; rewrite E; cbn [fst].
    + unfold spec_response.
      destruct (top (spec_resolve textScore (Js.default "" (chat_query req))
                                  (Js.default [] (chat_tags req))
                                  (know_base w)));
        eexists; (split; [reflexivity |]); cbn;
        repeat split; auto; intros; try discriminate; intuition discriminate.
    + eexists. split; [reflexivity |]. cbn.
      repeat split; eauto 6; intros; try discriminate; intuition discriminate.
  - destruct (get_top_queries_cases w) as [_ [[_ E] | [m [Hm E]]]];
      rewrite E; eexists; (split; [reflexivity |]); cbn;
      repeat split; eauto 6; intros; try discriminate; intuition discriminate.
Qed.

(** X2: no route removes or changes what the collections hold.  A request
    adds at most one document in all: a record to the knowledge base, and
    then it is a [POST /kb], or an entry to the log, and then it is a
    [POST /chat]. *)
Theorem collections_only_grow (r : Request) (w : World) :
  let w' := snd (handle textScore r w) in
  exists added logged,
    know_base w' = know_base w ++ added
    /\ query_logs w' = query_logs w ++ logged
    /\ List.length added + List.length logged <= 1
    /\ (added <> [] -> exists req, r = PostKb req)
    /\ (logged <> [] -> exists req, r = PostChat req).
Proof.
  destruct (route_effects r w)
    as [[Ek El] | [[req [q [a [-> [_ [_ [Ek El]]]]]]] | [req [-> [Ek El]]]]];
    cbv zeta; rewrite Ek, El.
  - exists [], []. rewrite !app_nil_r.
    repeat split; auto; intros H; now elim H.
  - exists [created_doc q a req w], []. rewrite app_nil_r.
    split; [reflexivity |]. split; [reflexivity |]. split; [cbn; lia |].
    split; [intros _; now exists req | intros H; now elim H].
  - eexists [], _. rewrite app_nil_r.
    split; [reflexivity |]. split; [reflexivity |]. split; [cbn; lia |].
    split; [intros H; now elim H | intros _; now exists req].
Qed.

Lemma created_doc_well_formed (question answer : string) (req : KbBody)
      (w : World) :
  question <> "" -> answer <> "" ->
  well_formed_record (created_doc question answer req w).
Proof.
  intros Hq Ha. unfold well_formed_record, created_doc. cbn.
  repeat split; auto.
  rewrite map_map. apply map_ext. intros t. apply JsFacts.toLowerCase_idem.
Qed.

(** X3: in every state served from empty collections, each record of the
    knowledge base has a question and an answer that are not empty, and
    tags that are all in lower case. *)
Theorem served_records_are_well_formed (w : World) :
  served textScore w -> Forall well_formed_record (know_base w).
Proof.
  induction 1 as [w Hk _ | w r Hs IH | w f Hs IH].
  - rewrite Hk. constructor.
  - destruct (route_effects r w)
      as [[Ek _] | [[req [q [a [_ [Hq [Ha [Ek _]]]]]]] | [req [_ [Ek _]]]]];
      cbv zeta in Ek; rewrite Ek; auto.
    apply Forall_app. split; [exact IH |].
    constructor; [now apply created_doc_well_formed | constructor].
  - exact IH.
Qed.

Lemma log_refers_more (docs added : list KB.doc) (e : Log.doc) :
  log_refers docs e -> log_refers (docs ++ added) e.
Proof.
  intros [H1 H2]. split; [| exact H2].
  intros id Hid. destruct (H1 id Hid) as [d [Hd E]].
  exists d. split; [apply in_or_app; now left | exact E].
Qed.

Lemma log_entry_refers (query : string) (tags : list string) (w : World) :
  log_refers (know_base w)
             (log_entry query
                        (spec_resolve textScore query tags (know_base w)) w).
Proof.
  unfold log_refers, log_entry.
  cbn [Log.matchedDocId Log.score Log.matchedBy]. split.
  - intros id Hid.
    destruct (top (spec_resolve textScore query tags (know_base w)))
      as [d |] eqn:Et; [| discriminate Hid].
    injection Hid as <-. exists d.
    split; [now apply spec_resolve_top_in in Et | reflexivity].
  - intros Hs.
    destruct (spec_resolve_score textScore query tags (know_base w))
      as [_ Hnone].
    destruct (matchedBy (spec_resolve textScore query tags (know_base w)))
      eqn:Em; try reflexivity;
      rewrite Hnone in Hs by discriminate; now elim Hs.
Qed.

(** X4: in every state served from empty collections, a log entry that
    names a matched record names the [_id] of a record that is in the
    knowledge base, and a log entry with a score is an entry of the text
    tier. *)
Theorem served_log_refers_to_records (w : World) :
  served textScore w -> Forall (log_refers (know_base w)) (query_logs w).
Proof.
  induction 1 as [w _ Hl | w r Hs IH | w f Hs IH].
  - rewrite Hl. constructor.
  - destruct (route_effects r w)
      as [[Ek El] | [[req [q [a [_ [_ [_ [Ek El]]]]]]] | [req [_ [Ek El]]]]];
      cbv zeta in Ek, El; rewrite Ek, El.
    + exact IH.
    + revert IH. apply Forall_impl. intros e. apply log_refers_more.
    + apply Forall_app. split; [exact IH |].
      constructor; [apply log_entry_refers | constructor].
  - exact IH.
Qed.

Lemma text_hits_in (q : string) (docs : list KB.doc) (d : KB.doc) (x : Q) :
  In (d, x) (text_hits textScore q docs)
  <-> In d docs /\ textScore q d = Some x.
Proof.
  unfold text_hits. rewrite in_flat_map. split.
  - intros [d' [Hd H]]. destruct (textScore q d') eqn:E; [| elim H].
    destruct H as [H | []]. injection H as <- <-. now split.
  - intros [Hd E]. exists d. split; [exact Hd |]. rewrite E. now left.
Qed.

(** X5: when the database performs it, [textSearch] returns at most one
    hit; it returns none exactly when no record of the knowledge base
    matches the search, and otherwise a record of the knowledge base with
    its own score, which no matching record exceeds. *)
Theorem text_search_returns_the_best (q : string) (w : World) :
  failing w (FindText q) = None ->
  exists found,
    fst (textSearch textScore q w) = Returned found
    /\ (found = [] <->
        forall d, In d (know_base w) -> textScore q d = None)
    /\ forall d x rest,
        found = (d, x) :: rest ->
        rest = []
        /\ In d (know_base w)
        /\ textScore q d = Some x
        /\ forall d' x', In d' (know_base w) -> textScore q d' = Some x' ->
                         (x' <= x)%Q.
Proof.
  intros Hf. exists (text_lookup textScore q (know_base w)).
  split; [now rewrite textSearch_ok by exact Hf |].
  unfold text_lookup.
  pose proof (@limit1_sort_desc_best _ score_above score_above_asym
                                     score_below_trans
                                     (text_hits textScore q (know_base w)))
    as Hbest.
  destruct (limit1 (sort_desc score_above
                              (text_hits textScore q (know_base w))))
    as [| [d0 x0] rest0] eqn:E.
  - split.
    + split; [| reflexivity]. intros _ d Hd.
      destruct (textScore q d) as [x |] eqn:Ex; [| reflexivity].
      assert (Hin : In (d, x) (text_hits textScore q (know_base w)))
        by (apply text_hits_in; now split).
      rewrite Hbest in Hin. elim Hin.
    + intros d x rest H. discriminate H.
  - destruct Hbest as [-> [Hin Hmax]].
    apply text_hits_in in Hin as [Hd Hx]. split.
    + split; [intros H; discriminate H |].
      intros Hnone. rewrite (Hnone d0 Hd) in Hx. discriminate Hx.
    + intros d x rest H. injection H as <- <- <-.
      repeat split; auto.
      intros d' x' Hd' Hx'.
      assert (Hin' : In (d', x') (text_hits textScore q (know_base w)))
        by (apply text_hits_in; now split).
      specialize (Hmax _ Hin'). unfold score_above in Hmax. cbn in Hmax.
      apply negb_false_iff in Hmax. now apply Qle_bool_iff in Hmax.
Qed.

End RouteFacts.

(* ================================================================== *)
(** ** The first record in store order *)

(** X7: when the database performs it, [regexFallback] returns nothing
    exactly when no record contains the query, up to case, in its
    question or its answer, and otherwise the first such record in store
    order: no record before it contains the query. *)
Theorem regex_fallback_returns_the_first (query : string) (w : World) :
  failing w (FindRegex (RegExp.escape query)) = None ->
  let contains (d : KB.doc) :=
    Js.ci_substring query (KB.question d)
    \/ Js.ci_substring query (KB.answer d) in
  exists found,
    fst (regexFallback query w) = Returned found
    /\ ((found = [] /\ forall d, In d (know_base w) -> ~ contains d)
        \/ exists d before after,
            found = [d]
            /\ know_base w = before ++ d :: after
            /\ contains d
            /\ forall x, In x before -> ~ contains x).
Proof.
  intros Hf contains.
  rewrite regexFallback_ok by assumption. cbn [fst]. unfold regex_lookup.
  rewrite RegExpFacts.compile_escape.
  eexists. split; [reflexivity |].
  assert (Hhit : forall d, regex_hit (RegExp.literal query) d = true
                           <-> contains d).
  { intros d. unfold regex_hit, contains.
    now rewrite orb_true_iff, !RegExpFacts.test_literal. }
  assert (Hmiss : forall d, regex_hit (RegExp.literal query) d = false ->
                            ~ contains d).
  { intros d Hd Hc. apply Hhit in Hc. congruence. }
  destruct (limit1_filter_first (regex_hit (RegExp.literal query))
                                (know_base w))
    as [[E Hno] | [d [before [after [E [Hk [Hd Hno]]]]]]]; rewrite E.
  - left. split; [reflexivity |]. intros d Hin. now apply Hmiss, Hno.
  - right. exists d, before, after.
    split; [reflexivity |]. split; [exact Hk |]. split; [now apply Hhit |].
    intros x Hx. now apply Hmiss, Hno.
Qed.

(** Whether a read is performed or rejected, it is recorded as sent. *)
Lemma store_read_frame_calls {A} (c : StoreCall) (read : World -> A)
      (w : World) :
  calls (snd (store_read c read w)) = calls w ++ [c].
Proof.
  unfold store_read, store_call. destruct (failing w c); reflexivity.
Qed.

(* ================================================================== *)
(** ** The tag list of [/kb/search] *)

Lemma split_nonempty (sep : ascii) (s : string) : Js.split sep s <> [].
Proof.
  destruct s as [| c s]; cbn [Js.split]; [discriminate |].
  destruct (Ascii.eqb c sep); [discriminate |].
  destruct (Js.split sep s); discriminate.
Qed.

(** X8: the tags [/kb/search] reads from its query string are trimmed and
    in lower case, so that the second lower-casing in [tagFilter] changes
    nothing and the database is asked for the list as parsed.  A missing
    or empty parameter gives no tags; any other parameter gives at least
    one tag (possibly the empty tag), so the tag tier can be tried. *)
Theorem search_tags_are_normalised (tags : option string) :
  let tagList := search_tag_list tags in
  Forall (fun t => Js.trim t = t /\ Js.toLowerCase t = t) tagList
  /\ (tags = None \/ tags = Some "" -> tagList = [])
  /\ (forall s, tags = Some s -> s <> "" -> tagList <> [])
  /\ forall w,
      calls (snd (tagFilter tagList w))
      = calls w ++ (if Js.nonempty tagList then [FindTagsIn tagList] else []).
Proof.
  intros tagList.
  assert (Hnorm : Forall (fun t => Js.trim t = t /\ Js.toLowerCase t = t)
                         tagList).
  { unfold tagList, search_tag_list.
    destruct tags as [s |]; [| constructor].
    destruct (Js.truthy s); [| constructor].
    apply Forall_forall. intros t Ht.
    apply in_map_iff in Ht as [x [<- _]]. split.
    - now rewrite <- JsFacts.trim_lower, JsFacts.trim_idem.
    - apply JsFacts.toLowerCase_idem. }
  split; [exact Hnorm |]. split; [| split].
  - intros [-> | ->]; reflexivity.
  - intros s -> Hs. unfold tagList, search_tag_list.
    rewrite (truthy_nonempty Hs).
    intros H. apply map_eq_nil in H. now apply split_nonempty in H.
  - intros w. unfold tagFilter.
    destruct (Js.nonempty tagList); cbn [negb].
    + rewrite store_read_frame_calls.
      assert (E : map Js.toLowerCase tagList = tagList).
      { clear - Hnorm. induction Hnorm as [| t l [_ Ht] _ IH]; cbn [map];
          [reflexivity | now rewrite Ht, IH]. }
      now rewrite E.
    + cbn. now rewrite app_nil_r.
Qed.

(* ================================================================== *)
(** ** Counts that add up *)

Lemma total_count_bump (q : string) (groups : list (string * nat)) :
  total_count (bump q groups) = S (total_count groups).
Proof.
  induction groups as [| [k n] groups IH]; cbn [bump]; [reflexivity |].
  unfold total_count in *.
  destruct (String.eqb k q); cbn [fold_right snd] in *; lia.
Qed.

Lemma total_count_groups (logs : list Log.doc) :
  forall groups,
    total_count (fold_left (fun gs d => bump (Log.query d) gs) logs groups)
    = List.length logs + total_count groups.
Proof.
  induction logs as [| d logs IH]; intros groups; cbn [fold_left List.length];
    [reflexivity |].
  rewrite IH, total_count_bump. lia.
Qed.

Lemma total_count_perm (l l' : list (string * nat)) :
  Permutation l l' -> total_count l = total_count l'.
Proof.
  unfold total_count. induction 1; cbn [fold_right] in *; lia.
Qed.

Lemma total_count_firstn (n : nat) (l : list (string * nat)) :
  total_count (firstn n l) <= total_count l.
Proof.
  unfold total_count. revert n. induction l as [| g l IH]; intros [| n];
    cbn [firstn fold_right]; try lia.
  specialize (IH n). lia.
Qed.

Lemma length_bump (q : string) (groups : list (string * nat)) :
  List.length (bump q groups) <= S (List.length groups).
Proof.
  induction groups as [| [k n] groups IH]; cbn [bump List.length]; [lia |].
  destruct (String.eqb k q); cbn [List.length]; lia.
Qed.

Lemma group_by_query_snoc (logs : list Log.doc) (e : Log.doc) :
  group_by_query (logs ++ [e]) = bump (Log.query e) (group_by_query logs).
Proof. unfold group_by_query. now rewrite fold_left_app. Qed.

Lemma query_count_snoc (q : string) (logs : list Log.doc) (e : Log.doc) :
  query_count q (logs ++ [e])
  = query_count q logs + (if String.eqb (Log.query e) q then 1 else 0).
Proof.
  unfold query_count. rewrite filter_app, length_app. cbn [filter].
  destruct (String.eqb (Log.query e) q); reflexivity.
Qed.

(** With at most ten groups the aggregate keeps every group. *)
Lemma top_ten_keeps_all (logs : list Log.doc) (q : string) :
  List.length (group_by_query logs) <= 10 ->
  0 < query_count q logs ->
  In (q, query_count q logs)
     (firstn 10 (sort_desc count_above (group_by_query logs))).
Proof.
  intros Hlen Hq.
  pose proof (sort_desc_perm count_above (group_by_query logs)) as Hp.
  rewrite firstn_all2 by (rewrite (Permutation_length Hp); exact Hlen).
  apply (Permutation_in _ (Permutation_sym Hp)).
  now apply group_by_query_spec.
Qed.

(** X10: the counts GET /analytics/top-queries returns never add up to
    more than the number of log entries; when the log holds at most ten
    different queries they add up to exactly that number, and every query
    of the log is listed with its count. *)
Theorem top_queries_counts_add_up (w : World) :
  failing w AggregateLog = None ->
  exists agg,
    fst (get_top_queries w) = Returned (json (TopQueriesBody agg))
    /\ total_count agg <= List.length (query_logs w)
    /\ (List.length (group_by_query (query_logs w)) <= 10 ->
        total_count agg = List.length (query_logs w)
        /\ forall q, 0 < query_count q (query_logs w) ->
                     In (q, query_count q (query_logs w)) agg).
Proof.
  intros Hf.
  destruct (get_top_queries_cases w) as [_ [[_ E] | [m [Hm _]]]];
    [| congruence].
  eexists. split; [exact E |].
  pose proof (sort_desc_perm count_above (group_by_query (query_logs w)))
    as Hp.
  assert (Hall : total_count (group_by_query (query_logs w))
                 = List.length (query_logs w)).
  { unfold group_by_query. rewrite total_count_groups. cbn. lia. }
  split.
  - rewrite <- Hall, <- (total_count_perm Hp). apply total_count_firstn.
  - intros Hlen. split.
    + rewrite firstn_all2 by (rewrite (Permutation_length Hp); exact Hlen).
      now rewrite (total_count_perm Hp).
    + intros q. now apply top_ten_keeps_all.
Qed.

Section Composition.

Variable textScore : string -> KB.doc -> option Q.

(** X11: a chat that goes through counts once in the analytics.  In a
    healthy world whose log holds fewer than ten different queries, GET
    /analytics/top-queries after a POST /chat lists the query of the chat
    with one more than its earlier count, and every other query of the
    log with its count unchanged. *)
Theorem chat_shows_in_top_queries (req : ChatBody) (w : World) :
  healthy w ->
  List.length (group_by_query (query_logs w)) < 10 ->
  let query := Js.default "" (chat_query req) in
  let w' := snd (post_chat textScore req w) in
  exists agg,
    fst (get_top_queries w') = Returned (json (TopQueriesBody agg))
    /\ In (query, S (query_count query (query_logs w))) agg
    /\ forall q, q <> query -> 0 < query_count q (query_logs w) ->
                 In (q, query_count q (query_logs w)) agg.
Proof.
  intros H Hlen query w'.
  assert (Hw' : query_logs w'
                = query_logs w
                  ++ [log_entry query
                                (spec_resolve textScore query
                                              (Js.default [] (chat_tags req))
                                              (know_base w)) w]).
  { unfold w'. now rewrite (post_chat_healthy textScore req H). }
  assert (Hf : failing w' AggregateLog = None).
  { unfold w'. rewrite (post_chat_healthy textScore req H). apply H. }
  destruct (get_top_queries_cases w') as [_ [[_ E] | [m [Hm _]]]];
    [| congruence].
  eexists. split; [exact E |].
  assert (Hten : List.length (group_by_query (query_logs w')) <= 10).
  { rewrite Hw', group_by_query_snoc.
    pose proof (length_bump (Log.query
                               (log_entry query
                                  (spec_resolve textScore query
                                     (Js.default [] (chat_tags req))
                                     (know_base w)) w))
                            (group_by_query (query_logs w))).
    lia. }
  split.
  - replace (S (query_count query (query_logs w)))
      with (query_count query (query_logs w')).
    + apply top_ten_keeps_all; [exact Hten |].
      rewrite Hw', query_count_snoc. cbn [log_entry Log.query].
      rewrite String.eqb_refl. lia.
    + rewrite Hw', query_count_snoc. cbn [log_entry Log.query].
      rewrite String.eqb_refl. lia.
  - intros q Hne Hq.
    replace (query_count q (query_logs w))
      with (query_count q (query_logs w')).
    + apply top_ten_keeps_all; [exact Hten |].
      rewrite Hw', query_count_snoc. lia.
    + rewrite Hw', query_count_snoc. cbn [log_entry Log.query].
      destruct (String.eqb_spec query q); [now elim Hne | lia].
Qed.

(** X9: a record added through POST /kb answers a chat that gives only a
    tag.  In a healthy world, after a valid POST /kb with the tag [given],
    a POST /chat with an empty query and search tags that hold [given] in
    any case is answered with tier tag, no score, and the answer of a
    record that carries one of the wanted tags; the log gets one entry
    that names this record; and on a knowledge base that was empty the
    record is the one added. *)
Theorem added_tag_answers_tag_chat (req : KbBody) (w : World)
        (question answer given : string) (search : list string) :
  healthy w ->
  kb_question req = Some question -> question <> "" ->
  kb_answer req = Some answer -> answer <> "" ->
  In given (Js.default [] (kb_tags req)) ->
  (exists t, In t search /\ Js.toLowerCase t = Js.toLowerCase given) ->
  let w1 := snd (post_kb req w) in
  let r := post_chat textScore (mkChatBody (Some "") (Some search)) w1 in
  exists d,
    In d (know_base w1)
    /\ (exists t, In t (KB.tags d) /\ In t (map Js.toLowerCase search))
    /\ fst r = Returned (json (ChatHitBody (KB.answer d) (KB.source d)
                                           (KB.tags d) by_tag None))
    /\ query_logs (snd r)
       = query_logs w
         ++ [Log.mk (S (next_id w)) "" (Some (KB._id d)) None by_tag (now w)]
    /\ (know_base w = [] -> d = created_doc question answer req w).
Proof.
  intros H Hq Hqn Ha Han Hgiven [t [Ht Hlow]] w1 r.
  set (added := created_doc question answer req w).
  set (wanted := map Js.toLowerCase search).
  assert (Hw1 : w1 = mkWorld (know_base w ++ [added]) (query_logs w)
                             (S (next_id w)) (now w) (failing w)
                             (calls w ++ [CreateKB])).
  { unfold w1. now rewrite (post_kb_created req w Hq Hqn Ha Han (H CreateKB)). }
  assert (Hhit : tag_hit wanted added = true).
  { apply tag_hit_intro with (t := Js.toLowerCase given).
    - cbn. apply in_map, Hgiven.
    - unfold wanted. rewrite <- Hlow. apply in_map, Ht. }
  destruct (limit1_filter_snoc (tag_hit wanted) (know_base w) added Hhit)
    as [d [E [Hp [Hd Hfirst]]]].
  assert (H1 : healthy w1) by (rewrite Hw1; intros c; apply H).
  assert (Hn : Js.nonempty search = true)
    by (destruct search; [elim Ht | reflexivity]).
  exists d. unfold r. rewrite (post_chat_healthy textScore _ H1).
  cbn [chat_query chat_tags Js.default fst snd].
  unfold after_chat, spec_resolve, spec_response, log_entry.
  cbn [Js.truthy]. rewrite Hn. unfold tag_lookup. fold wanted.
  rewrite Hw1. cbn [know_base query_logs next_id now]. rewrite E.
  cbn [top matchedBy score option_map score_or_null].
  split; [exact Hd |]. split; [now apply tag_hit_elim |].
  split; [reflexivity |]. split; [reflexivity |].
  intros Hempty. apply Hfirst. now rewrite Hempty.
Qed.

End Composition.

(* ================================================================== *)
(** ** The chat widget against the server *)

Section ClientFacts.

Variable textScore : string -> KB.doc -> option Q.

(** The text the widget shows for a resolution. *)
Lemma spec_response_answer (v : ChatVars) :
  response_ok (spec_response v) = true
  /\ data_answer (body (spec_response v))
     = Some (match top v with
             | Some d => KB.answer d
             | None => fallback_answer
             end).
Proof. unfold spec_response. destruct (top v); split; reflexivity. Qed.

(** A submit with an input that is not blank: the four ways it can go. *)
Lemma sendMessage_cases (link : Link) (wd : Widget) (w : World) :
  Js.truthy (Js.trim (input wd)) = true ->
  let query := Js.trim (input wd) in
  let body := mkChatBody (Some query) (Some []) in
  let v := spec_resolve textScore query [] (know_base w) in
  let answer :=
    match top v with Some d => KB.answer d | None => fallback_answer end in
  let shown (t : string) :=
    mkWidget (messages wd ++ [mkMessage query from_user; mkMessage t from_bot])
             "" false in
  (link = LinkDown
   /\ sendMessage textScore link wd w = (shown error_text, w))
  \/ (link = ReplyLost
      /\ sendMessage textScore link wd w
         = (shown error_text, snd (post_chat textScore body w)))
  \/ (link = LinkUp
      /\ failing w CreateLog = None
      /\ sendMessage textScore link wd w
         = (shown (if Js.truthy answer then answer else trouble_text),
            after_chat textScore query [] w))
  \/ (link = LinkUp
      /\ (exists c m, failing w c = Some m)
      /\ sendMessage textScore link wd w
         = (shown error_text, snd (post_chat textScore body w))
      /\ query_logs (snd (post_chat textScore body w)) = query_logs w
      /\ know_base (snd (post_chat textScore body w)) = know_base w).
Proof.
  intros Hq. cbv zeta.
  unfold sendMessage. cbv zeta. rewrite Hq. cbn [negb].
  unfold try_catch, bind, fetch_chat.
  destruct link.
  - right. right.
    destruct (post_chat_cases textScore
                (mkChatBody (Some (Js.trim (input wd))) (Some [])) w)
      as [[Hlog E] | [c [m [Hc [E1 [E2 E3]]]]]];
      cbn [chat_query chat_tags Js.default] in *.
    + left. split; [reflexivity |]. split; [exact Hlog |].
      rewrite E.
      destruct (spec_response_answer
                  (spec_resolve textScore (Js.trim (input wd)) []
                                (know_base w))) as [Hok Hans].
      rewrite Hok. cbn [negb ret]. rewrite Hans.
      cbn [Js.truthy_opt Js.default messages input isLoading].
      now rewrite <- app_assoc.
    + right. split; [reflexivity |]. split; [now exists c, m |].
      split; [| split; assumption].
      destruct (post_chat textScore
                  (mkChatBody (Some (Js.trim (input wd))) (Some [])) w)
        as [o w'] eqn:E.
      cbn [fst snd] in *. subst o.
      cbn [negb response_ok status status_json andb Nat.leb throw ret
           messages input isLoading].
      now rewrite <- app_assoc.
  - left. split; [reflexivity |].
    cbn [ret messages input isLoading]. now rewrite <- app_assoc.
  - right. left. split; [reflexivity |].
    cbn [ret messages input isLoading]. now rewrite <- app_assoc.
Qed.

(** What a chat request leaves behind, whatever happens to it. *)
Lemma post_chat_growth (req : ChatBody) (w : World) :
  know_base (snd (post_chat textScore req w)) = know_base w
  /\ exists logged,
      query_logs (snd (post_chat textScore req w)) = query_logs w ++ logged
      /\ List.length logged <= 1
      /\ Forall (fun e => Log.query e = Js.default "" (chat_query req))
                logged.
Proof.
  destruct (post_chat_cases textScore req w)
    as [[_ E] | [c [m [_ [_ [E1 E2]]]]]].
  - rewrite E. cbn [snd after_chat know_base query_logs].
    split; [reflexivity |]. eexists. split; [reflexivity |].
    split; [cbn; lia |]. constructor; [reflexivity | constructor].
  - split; [exact E2 |]. exists []. rewrite app_nil_r.
    split; [exact E1 |]. split; [cbn; lia | constructor].
Qed.

(** X12: a submit of the widget either does nothing, when the input is
    blank (no request is made), or adds exactly two turns to the
    transcript, the trimmed input as the user's and one text as the
    bot's, whatever the network and the server do.  It then leaves the
    input empty, the loading flag off and the Send button disabled; the
    server has logged at most one entry, for the trimmed input, and the
    knowledge base is as it was. *)
Theorem send_message_adds_two_turns (link : Link) (wd : Widget) (w : World) :
  let query := Js.trim (input wd) in
  let wd' := fst (sendMessage textScore link wd w) in
  let w' := snd (sendMessage textScore link wd w) in
  (Js.truthy query = false /\ wd' = wd /\ w' = w)
  \/ (Js.truthy query = true
      /\ (exists t,
             messages wd'
             = messages wd
               ++ [mkMessage query from_user; mkMessage t from_bot])
      /\ input wd' = "" /\ isLoading wd' = false
      /\ send_disabled wd' = true
      /\ know_base w' = know_base w
      /\ exists logged,
          query_logs w' = query_logs w ++ logged
          /\ List.length logged <= 1
          /\ Forall (fun e => Log.query e = query) logged).
Proof.
  cbv zeta. destruct (Js.truthy (Js.trim (input wd))) eqn:Hq.
  - right. split; [reflexivity |].
    pose proof (post_chat_growth
                  (mkChatBody (Some (Js.trim (input wd))) (Some [])) w)
      as [Hk Hlog].
    cbn [chat_query Js.default] in Hlog.
    destruct (sendMessage_cases link wd w Hq)
      as [[_ E] | [[_ E] | [[_ [_ E]] | [_ [_ [E _]]]]]];
      cbv zeta in E; rewrite E; cbn [fst snd messages input isLoading];
      (split; [eexists; reflexivity |]);
      (split; [reflexivity |]); (split; [reflexivity |]);
      (split; [reflexivity |]).
    + split; [reflexivity |]. exists []. rewrite app_nil_r.
      split; [reflexivity |]. split; [cbn; lia | constructor].
    + split; assumption.
    + cbn [after_chat know_base query_logs]. split; [reflexivity |].
      eexists. split; [reflexivity |]. split; [cbn; lia |].
      constructor; [reflexivity | constructor].
    + split; assumption.
  - left. unfold sendMessage. cbv zeta. rewrite Hq. now split.
Qed.

(** X13: the widget against a healthy server whose records have answers
    that are not empty.  A submit of an input that is not blank shows the
    answer of the record the resolution selects for the trimmed input, or
    the fallback message when it selects none.  The widget sends no
    tags: the resolution is never by tag, the text search of the trimmed
    input is the first operation sent and the tag filter is not among the
    later ones; and one entry is logged. *)
Theorem widget_shows_the_answer (wd : Widget) (w : World) :
  healthy w ->
  Forall well_formed_record (know_base w) ->
  Js.truthy (Js.trim (input wd)) = true ->
  let query := Js.trim (input wd) in
  let v := spec_resolve textScore query [] (know_base w) in
  let wd' := fst (sendMessage textScore LinkUp wd w) in
  let w' := snd (sendMessage textScore LinkUp wd w) in
  messages wd'
  = messages wd
    ++ [mkMessage query from_user;
        mkMessage (match top v with
                   | Some d => KB.answer d
                   | None => fallback_answer
                   end) from_bot]
  /\ matchedBy v <> by_tag
  /\ query_logs w' = query_logs w ++ [log_entry query v w]
  /\ exists later,
      calls w' = calls w ++ FindText query :: later
      /\ forall t, ~ In (FindTagsIn t) later.
Proof.
  intros H Hwf Hq. cbv zeta.
  set (query := Js.trim (input wd)) in *.
  set (v := spec_resolve textScore query [] (know_base w)).
  destruct (@sendMessage_cases LinkUp wd w Hq)
    as [[Hl _] | [[Hl _] | [[_ [_ E]] | [_ [[c [m Hc]] _]]]]];
    try discriminate Hl; [| rewrite H in Hc; discriminate Hc].
  cbv zeta in E. fold query in E. fold v in E. rewrite E.
  cbn [fst snd messages after_chat query_logs calls].
  assert (Hans : Js.truthy (match top v with
                            | Some d => KB.answer d
                            | None => fallback_answer
                            end) = true).
  { destruct (top v) as [d |] eqn:Et; [| reflexivity].
    apply truthy_nonempty.
    apply spec_resolve_top_in in Et.
    rewrite Forall_forall in Hwf. now destruct (Hwf d Et) as [_ [Ha _]]. }
  rewrite Hans. split; [reflexivity |].
  split.
  { unfold v, spec_resolve. rewrite Hq. cbn [Js.nonempty].
    destruct (text_lookup textScore query (know_base w)) as [| [d x] l];
      [destruct (regex_lookup query (know_base w)) |];
      cbn; discriminate. }
  split; [reflexivity |].
  unfold spec_tiers_tried. rewrite Hq. cbn [Js.nonempty app].
  eexists. split; [reflexivity |].
  intros t Hin.
  destruct (text_lookup textScore query (know_base w));
    [destruct (regex_lookup query (know_base w)) |];
    cbn in Hin; intuition discriminate.
Qed.

(** X14: the widget when something fails.  After a submit of an input
    that is not blank, the bot's turn is the fixed error text whenever
    the request or its reply is lost, and whenever the log write of the
    server is rejected, whatever record the resolution found.  Nothing
    is logged when the request is lost or the log write is rejected; when
    only the reply is lost, a healthy server has logged the resolution
    that the user does not see. *)
Theorem widget_reports_failures (link : Link) (wd : Widget) (w : World) :
  Js.truthy (Js.trim (input wd)) = true ->
  let query := Js.trim (input wd) in
  let wd' := fst (sendMessage textScore link wd w) in
  let w' := snd (sendMessage textScore link wd w) in
  (link <> LinkUp \/ failing w CreateLog <> None ->
   messages wd'
   = messages wd
     ++ [mkMessage query from_user; mkMessage error_text from_bot])
  /\ (link = LinkDown \/ failing w CreateLog <> None ->
      query_logs w' = query_logs w)
  /\ (link = ReplyLost -> healthy w ->
      query_logs w'
      = query_logs w
        ++ [log_entry query
                      (spec_resolve textScore query [] (know_base w)) w]).
Proof.
  intros Hq. cbv zeta.
  destruct (sendMessage_cases link wd w Hq)
    as [[Hl E] | [[Hl E] | [[Hl [Hlog E]] | [Hl [_ [E [E1 _]]]]]]];
    cbv zeta in E; rewrite E; cbn [fst snd messages]; subst link.
  - repeat split; auto. intros Hl. discriminate Hl.
  - split; [reflexivity |]. split.
    + intros [Hl | Hlog]; [discriminate Hl |].
      destruct (post_chat_cases textScore
                  (mkChatBody (Some (Js.trim (input wd))) (Some [])) w)
        as [[Hnone _] | [c [m [_ [_ [E1 _]]]]]]; [now elim Hlog | exact E1].
    + intros _ H.
      now rewrite (post_chat_healthy textScore
                     (mkChatBody (Some (Js.trim (input wd))) (Some [])) H).
  - split; [| split].
    + intros [Hl | Hl]; now elim Hl.
    + intros [Hl | Hl]; [discriminate Hl | now elim Hl].
    + intros Hl. discriminate Hl.
  - split; [reflexivity |]. split; [intros _; exact E1 |].
    intros Hl. discriminate Hl.
Qed.

End ClientFacts.

(* ================================================================== *)
(** ** What a search returns *)

Section SearchFacts.

Variable textScore : string -> KB.doc -> option Q.

(** The score of a resolution is the text score of its record. *)
Lemma spec_resolve_text_score (query : string) (tags : list string)
      (docs : list KB.doc) (d : KB.doc) (x : Q) :
  top (spec_resolve textScore query tags docs) = Some d ->
  score (spec_resolve textScore query tags docs) = Some x ->
  textScore query d = Some x.
Proof.
  unfold spec_resolve.
  destruct (Js.truthy query).
  - destruct (text_lookup textScore query docs) as [| [d0 x0] l] eqn:Et.
    + destruct (regex_lookup query docs);
        [destruct (if Js.nonempty tags then tag_lookup tags docs else []) |];
        cbn; intros _ H; discriminate H.
    + cbn. intros Hd Hx. injection Hd as <-. injection Hx as <-.
      assert (Hin : In (d0, x0) (text_lookup textScore query docs))
        by (rewrite Et; now left).
      unfold text_lookup, limit1 in Hin. apply in_firstn in Hin.
      apply (Permutation_in _ (sort_desc_perm _ _)) in Hin.
      now apply text_hits_in in Hin.
  - destruct (if Js.nonempty tags then tag_lookup tags docs else []);
      cbn; intros _ H; discriminate H.
Qed.

(** X15: GET /kb/search changes neither collection and, when it answers
    with status 200, echoes the query and the parsed tags and returns at
    most one result, whatever the parameters: a record of the knowledge
    base, which carries a score only when the text tier found it, and
    then its own text score.  Otherwise it answers 500 with the message of
    a rejected operation. *)
Theorem kb_search_returns_a_stored_record (req : SearchQuery) (w : World) :
  let q := Js.default "" (search_q req) in
  let tagList := search_tag_list (search_tags req) in
  let r := get_kb_search textScore req w in
  know_base (snd r) = know_base w
  /\ ((exists results,
          fst r = Returned (json (SearchBody q tagList results))
          /\ List.length results <= 1
          /\ forall d s, In (d, s) results ->
                         In d (know_base w)
                         /\ forall x, s = Some x -> textScore q d = Some x)
      \/ exists c m,
          failing w c = Some m
          /\ fst r = Returned (status_json 500 (ErrorBody m))).
Proof.
  intros q tagList r. split; [apply get_kb_search_frame |].
  destruct (get_kb_search_resolution textScore req w) as [E | H];
    [left | now right].
  fold q tagList in E. eexists. split; [exact E |].
  unfold spec_results.
  destruct (top (spec_resolve textScore q tagList (know_base w)))
    as [d0 |] eqn:Et.
  - split; [cbn; lia |]. intros d s [Hin | []]. injection Hin as <- <-.
    split; [now apply spec_resolve_top_in in Et |].
    intros x Hx.
    now apply spec_resolve_text_score
      with (tags := tagList) (docs := know_base w).
  - split; [cbn; lia |]. intros d s [].
Qed.

End SearchFacts.

(* ================================================================== *)
(** ** The further properties at work on the campus *)

Lemma every_route_responds_witness :
  exists rsp,
    fst (handle wordScore (GetKbSearch (mkSearchQuery (Some "zzz") None))
                campus_kb_down)
    = Returned rsp
    /\ status rsp = 500
    /\ exists c m, failing campus_kb_down c = Some m /\ body rsp = ErrorBody m.
Proof.
  destruct (every_route_responds
              wordScore (GetKbSearch (mkSearchQuery (Some "zzz") None))
              campus_kb_down) as [rsp [E [_ [_ H]]]].
  exists rsp. split; [exact E |].
  assert (Hs : status rsp = 500) by (vm_compute in E; now injection E as <-).
  split; [exact Hs | exact (H Hs)].
Defined.

Lemma collections_only_grow_witness :
  exists added,
    added <> []
    /\ know_base parking_world = know_base empty_world ++ added
    /\ exists req, PostKb add_parking = PostKb req.
Proof.
  destruct (collections_only_grow wordScore (PostKb add_parking) empty_world)
    as [added [logged [Ek [_ [_ [Ha _]]]]]].
  assert (Hne : added <> []).
  { intros ->. vm_compute in Ek. discriminate Ek. }
  exists added. split; [exact Hne |]. split; [exact Ek | exact (Ha Hne)].
Defined.

Lemma served_chatted_world : served wordScore chatted_world.
Proof.
  exact (served_request (PostChat (ask_tags ["Parking"]))
           (served_request (PostKb add_parking)
              (served_start wordScore empty_world eq_refl eq_refl))).
Qed.

Lemma served_records_witness :
  served wordScore chatted_world
  /\ Forall well_formed_record (know_base chatted_world)
  /\ List.length (know_base chatted_world) = 1.
Proof.
  split; [exact served_chatted_world |].
  split; [| reflexivity].
  exact (served_records_are_well_formed served_chatted_world).
Defined.

Lemma served_log_witness :
  served wordScore chatted_world
  /\ Forall (log_refers (know_base chatted_world)) (query_logs chatted_world)
  /\ map Log.matchedDocId (query_logs chatted_world) = [Some 0].
Proof.
  split; [exact served_chatted_world |].
  split; [| reflexivity].
  exact (served_log_refers_to_records served_chatted_world).
Defined.

Lemma text_search_witness :
  failing campus (FindText "orientation day") = None
  /\ exists found,
      fst (textSearch wordScore "orientation day" campus) = Returned found
      /\ found = [(orientation, inject_Z 8)].
Proof.
  split; [reflexivity |].
  destruct (text_search_returns_the_best wordScore "orientation day" campus
                                         eq_refl) as [found [E _]].
  exists found. split; [exact E |].
  vm_compute in E. now injection E as <-.
Defined.

Lemma regex_first_witness :
  failing campus (FindRegex (RegExp.escape "c+")) = None
  /\ exists found,
      fst (regexFallback "c+" campus) = Returned found /\ found = [parking].
Proof.
  split; [reflexivity |].
  destruct (regex_fallback_returns_the_first "c+" campus eq_refl)
    as [found [E _]].
  exists found. split; [exact E |].
  vm_compute in E. now injection E as <-.
Defined.

Lemma search_tags_witness :
  " Parking ,x" <> ""
  /\ search_tag_list (Some " Parking ,x") = ["parking"; "x"]
  /\ search_tag_list (Some " Parking ,x") <> []
  /\ search_tag_list (Some "") = [].
Proof.
  assert (Hne : " Parking ,x" <> "") by discriminate.
  destruct (search_tags_are_normalised (Some " Parking ,x"))
    as [_ [_ [H _]]].
  destruct (search_tags_are_normalised (Some "")) as [_ [H0 _]].
  split; [exact Hne |]. split; [reflexivity |].
  split; [exact (H _ eq_refl Hne) | exact (H0 (or_intror eq_refl))].
Defined.

Lemma added_tag_witness :
  healthy empty_world
  /\ exists d,
      fst (post_chat wordScore (mkChatBody (Some "") (Some ["PARKING"]))
                     (snd (post_kb add_parking empty_world)))
      = Returned (json (ChatHitBody (KB.answer d) (KB.source d) (KB.tags d)
                                    by_tag None))
      /\ KB.answer d = "Lot C++ behind the gym".
Proof.
  split; [exact healthy_empty_world |].
  destruct (@added_tag_answers_tag_chat
              wordScore add_parking empty_world "Where can I park?"
              "Lot C++ behind the gym" "Parking" ["PARKING"]
              healthy_empty_world eq_refl ltac:(discriminate)
              eq_refl ltac:(discriminate) (or_introl eq_refl)
              (ex_intro _ "PARKING" (conj (or_introl eq_refl) eq_refl)))
    as [d [_ [_ [E [_ Hd]]]]].
  exists d. split; [exact E |]. now rewrite (Hd eq_refl).
Defined.

Lemma top_queries_total_witness :
  failing busy_campus AggregateLog = None
  /\ List.length (group_by_query (query_logs busy_campus)) <= 10
  /\ exists agg,
      fst (get_top_queries busy_campus) = Returned (json (TopQueriesBody agg))
      /\ total_count agg = 5.
Proof.
  assert (Hlen : List.length (group_by_query (query_logs busy_campus)) <= 10)
    by (vm_compute; lia).
  split; [reflexivity |]. split; [exact Hlen |].
  destruct (top_queries_counts_add_up busy_campus eq_refl)
    as [agg [E [_ H]]].
  exists agg. split; [exact E |]. exact (proj1 (H Hlen)).
Defined.

Lemma healthy_busy_campus : healthy busy_campus.
Proof. intros c. reflexivity. Qed.

Lemma chat_in_top_queries_witness :
  healthy busy_campus
  /\ List.length (group_by_query (query_logs busy_campus)) < 10
  /\ exists agg,
      fst (get_top_queries (snd (post_chat wordScore (ask "exams")
                                           busy_campus)))
      = Returned (json (TopQueriesBody agg))
      /\ In ("exams", 2) agg.
Proof.
  assert (Hlen : List.length (group_by_query (query_logs busy_campus)) < 10)
    by (vm_compute; lia).
  split; [exact healthy_busy_campus |]. split; [exact Hlen |].
  destruct (chat_shows_in_top_queries wordScore (ask "exams")
                                      healthy_busy_campus Hlen)
    as [agg [E [Hin _]]].
  exists agg. split; [exact E | exact Hin].
Defined.

Lemma campus_records_well_formed :
  Forall well_formed_record (know_base campus).
Proof.
  repeat constructor; cbn; discriminate.
Qed.

Lemma widget_answer_witness :
  healthy campus
  /\ Forall well_formed_record (know_base campus)
  /\ Js.truthy (Js.trim (input typing)) = true
  /\ messages (fst (sendMessage wordScore LinkUp typing campus))
     = [mkMessage greeting from_bot;
        mkMessage "c+" from_user;
        mkMessage "Lot C++ behind the gym" from_bot].
Proof.
  split; [exact healthy_campus |].
  split; [exact campus_records_well_formed |]. split; [reflexivity |].
  exact (proj1 (widget_shows_the_answer wordScore typing healthy_campus
                                        campus_records_well_formed eq_refl)).
Defined.

Lemma widget_failure_witness :
  Js.truthy (Js.trim (input typing)) = true
  /\ failing campus_log_down CreateLog <> None
  /\ messages (fst (sendMessage wordScore LinkUp typing campus_log_down))
     = [mkMessage greeting from_bot;
        mkMessage "c+" from_user;
        mkMessage error_text from_bot]
  /\ query_logs (snd (sendMessage wordScore LinkUp typing campus_log_down))
     = [].
Proof.
  assert (Hlog : failing campus_log_down CreateLog <> None) by discriminate.
  destruct (widget_reports_failures wordScore LinkUp typing campus_log_down
                                    eq_refl) as [H1 [H2 _]].
  split; [reflexivity |]. split; [exact Hlog |].
  split; [exact (H1 (or_intror Hlog)) | exact (H2 (or_intror Hlog))].
Defined.

Lemma kb_search_record_witness :
  exists results,
    fst (get_kb_search wordScore
                       (mkSearchQuery (Some "orientation day") None) campus)
    = Returned (json (SearchBody "orientation day" [] results))
    /\ results = [(orientation, Some (inject_Z 8))]
    /\ wordScore "orientation day" orientation = Some (inject_Z 8).
Proof.
  destruct (kb_search_returns_a_stored_record
              wordScore (mkSearchQuery (Some "orientation day") None) campus)
    as [_ [[results [E [_ H]]] | [c [m [Hc _]]]]]; [| discriminate Hc].
  exists results. split; [exact E |].
  assert (Hr : results = [(orientation, Some (inject_Z 8))])
    by (vm_compute in E; now injection E as <-).
  split; [exact Hr |].
  apply (proj2 (H orientation (Some (inject_Z 8))
                  ltac:(rewrite Hr; now left))).
  reflexivity.
Defined.

Lemma reachable_log_witness :
  reachable wordScore (snd (handle wordScore (PostChat (ask "c+")) campus))
  /\ Forall log_invariant
            (query_logs (snd (handle wordScore (PostChat (ask "c+")) campus)))
  /\ List.length
       (query_logs (snd (handle wordScore (PostChat (ask "c+")) campus)))
     = 1.
Proof.
  assert (Hr : reachable wordScore
                 (snd (handle wordScore (PostChat (ask "c+")) campus)))
    by exact (reach_request (PostChat (ask "c+"))
                (reach_start wordScore campus eq_refl)).
  split; [exact Hr |]. split; [| reflexivity].
  exact (reachable_log_invariant Hr).
Defined.
